(** * directive.ts: lifecycle manager binding directive instances to DOM elements

    A shallow embedding of [src/directive.ts]:
    - [extractAttributesFromSelector], the regular-expression scan that
      builds the attribute watch-list of a manager;
    - [DirectiveManager] with its private [#attach]/[#detach], the public
      [attachTo], [detachFrom], [update], [observe], [disconnect], [getDir],
      the [MutationObserver] callback, and [registerDirective].

    JavaScript strings are sequences of UTF-16 code units ([list N]).  The
    symbol-keyed properties that the manager writes on element objects live
    in one shared store, a [gmap] from (node, symbol) to the identity of the
    stored directive instance.  Code that runs user callbacks or host
    methods is written in a state-and-exception monad over that store. *)

From stdpp Require Import gmap list strings.
From Equations Require Import Equations.
From Stdlib Require Import NArith Lia.

(** ** JavaScript strings *)

Definition jsstring := list N.

(** An ASCII literal as a JavaScript string. *)
Definition js (s : string) : jsstring :=
  map Ascii.N_of_ascii (String.list_ascii_of_string s).

(** ** The regular expression of [extractAttributesFromSelector]

    An opening bracket, [\s] any number of times, then capture group 1: one
    character of [a-zA-Z_:] followed by any number of [-a-zA-Z0-9_:.]; flag
    [g], so every [exec] resumes at [lastIndex]. *)

Module Pattern.

Local Open Scope N_scope.

(** [\s] without the [u] flag: WhiteSpace and LineTerminator code units. *)
Definition is_space (c : N) : bool :=
  ((9 <=? c) && (c <=? 13)) || (c =? 32) || (c =? 160) || (c =? 5760)
  || ((8192 <=? c) && (c <=? 8202)) || (c =? 8232) || (c =? 8233)
  || (c =? 8239) || (c =? 8287) || (c =? 12288) || (c =? 65279).

Definition is_alpha (c : N) : bool :=
  ((97 <=? c) && (c <=? 122)) || ((65 <=? c) && (c <=? 90)).

Definition is_digit (c : N) : bool := (48 <=? c) && (c <=? 57).

(** [[a-zA-Z_:]] *)
Definition is_name_start (c : N) : bool :=
  is_alpha c || (c =? 95) || (c =? 58).

(** [[-a-zA-Z0-9_:.]] *)
Definition is_name_char (c : N) : bool :=
  (c =? 45) || is_alpha c || is_digit c || (c =? 95) || (c =? 58) || (c =? 46).

(** [\[] *)
Definition is_open (c : N) : bool := c =? 91.

(** Greedy white-space star: what is left after the longest run of white space. *)
Fixpoint skip_spaces (s : jsstring) : jsstring :=
  match s with
  | c :: t => if is_space c then skip_spaces t else s
  | [] => []
  end.

(** Greedy name-character star: the longest run of name characters and what
    follows it. *)
Fixpoint span_name (s : jsstring) : jsstring * jsstring :=
  match s with
  | c :: t =>
      if is_name_char c
      then let '(nm, rest) := span_name t in (c :: nm, rest)
      else ([], s)
  | [] => ([], [])
  end.

(** The pattern anchored at the head of [s]: capture group 1 and the text
    after the match.  No character of [\s] is in [[a-zA-Z_:]] and the name
    class ends the pattern, so backtracking out of a greedy star never
    turns a failure into a match: the greedy reading is the only one. *)
Definition match_at (s : jsstring) : option (jsstring * jsstring) :=
  match s with
  | c :: t =>
      if is_open c then
        match skip_spaces t with
        | d :: u =>
            if is_name_start d
            then let '(nm, rest) := span_name u in Some (d :: nm, rest)
            else None
        | [] => None
        end
      else None
  | [] => None
  end.

(** [attrPattern.exec] from the current [lastIndex]: the leftmost match in
    the remaining text [s]; the second component is the text from the new
    [lastIndex] on. *)
Fixpoint exec (s : jsstring) : option (jsstring * jsstring) :=
  match match_at s with
  | Some r => Some r
  | None => match s with
            | _ :: t => exec t
            | [] => None
            end
  end.

End Pattern.

(** ** [Set<string>]: insertion-ordered, no duplicates *)

Definition set_add (attrs : list jsstring) (x : jsstring) : list jsstring :=
  if decide (x ∈ attrs) then attrs else attrs ++ [x].

(** ** [extractAttributesFromSelector] *)

Definition inspect {A} (a : A) : {b | a = b} := exist _ a eq_refl.

(** The [while ((match = attrPattern.exec(selector)) !== null)] loop: [s] is
    the text from [lastIndex] on, [attrs] the set built so far. *)
Equations? exec_loop (s : jsstring) (attrs : list jsstring) : list jsstring
  by wf (length s) lt :=
  exec_loop s attrs with inspect (Pattern.exec s) := {
    | exist _ (Some (g, rest)) _ := exec_loop rest (set_add attrs g);
    | exist _ None _ := attrs }.
Proof.
  clear exec_loop.
  assert (Hspan : ∀ u nm r, Pattern.span_name u = (nm, r) →
                            (length r ≤ length u)%nat).
  { induction u as [|c t IH]; intros nm r; simpl.
    - intros [= <- <-]; simpl; lia.
    - destruct (Pattern.is_name_char c); [|intros [= <- <-]; simpl; lia].
      destruct (Pattern.span_name t) as [nm' r'] eqn:E.
      intros [= <- <-]. specialize (IH _ _ eq_refl). lia. }
  assert (Hskip : ∀ u, (length (Pattern.skip_spaces u) ≤ length u)%nat).
  { induction u as [|c t IH]; simpl; [lia|].
    destruct (Pattern.is_space c); simpl; lia. }
  assert (Hat : ∀ u g' r, Pattern.match_at u = Some (g', r) →
                          (length r < length u)%nat).
  { intros [|c t] g' r; simpl; [done|].
    destruct (Pattern.is_open c); [|done].
    specialize (Hskip t).
    destruct (Pattern.skip_spaces t) as [|d u]; [done|].
    destruct (Pattern.is_name_start d); [|done].
    destruct (Pattern.span_name u) as [nm r'] eqn:E.
    intros [= <- <-]. apply Hspan in E. simpl in Hskip. lia. }
  revert e. induction s as [|c t IH].
  - done.
  - cbn [Pattern.exec].
    destruct (Pattern.match_at (c :: t)) as [[g' r']|] eqn:E.
    + intros [= -> ->]. apply Hat in E. exact E.
    + intros H. apply IH in H. simpl. lia.
Qed.

Definition extractAttributesFromSelector (selector : jsstring) : list jsstring :=
  exec_loop selector [].


(** ** The host tree

    The document tree is an external collaborator.  A [Host] is one snapshot
    of it, as the manager sees it during one synchronous run: which objects
    are elements, which elements a selector selects, and the descendants of
    a node in tree order.  [selects host scope el sel] is the host's answer
    to whether the element [el] matches the selector [sel] when [:scope]
    stands for [scope]: [el.matches(sel)] asks it with the element itself
    as scope, [root.querySelectorAll(sel)] asks it of the descendants of
    [root] with [root] as scope, so the two can disagree on a selector that
    uses [:scope].  Selectors handed to the host are taken to be
    syntactically valid, so neither [matches] nor [querySelectorAll] raises
    a [SyntaxError]. *)

Definition node := nat.

Inductive NodeKind := Element | Document | DocumentFragment | OtherNode.

Record Host := mkHost {
  kind : node → NodeKind;
  selects : node → node → jsstring → bool;
  descendants : node → list node;
}.

(** What [el.matches(sel)] answers: the scope is the element itself. *)
Definition matches (host : Host) (el : node) (sel : jsstring) : bool :=
  selects host el el sel.

Definition instanceof_Element (host : Host) (n : node) : bool :=
  match kind host n with Element => true | _ => false end.

(** [ParentNode] is implemented by elements, documents and fragments. *)
Definition is_ParentNode (host : Host) (n : node) : bool :=
  match kind host n with OtherNode => false | _ => true end.

(** ** Mutation records *)

Inductive MutationType := childList | attributes | characterData.

Record MutationRecord := mkMutation {
  type : MutationType;
  target : node;
  addedNodes : list node;
  removedNodes : list node;
  attributeName : option jsstring;
}.

(** ** Directives

    A directive class is user code.  It is modelled by how each of its entry
    points completes: the two optional callbacks either return or throw
    (what they return is not used), and so does the constructor, which can
    also return an object of its own: [new] then yields that object in
    place of the one it created.  The object is taken to be of the class,
    as with a constructor that hands out one shared or cached instance.
    [None] is a class that does not implement the callback. *)

Definition sym := nat.
Definition inst := nat.

Inductive completion := Returns | Throws.

Inductive construction :=
| Completes (c : completion)
| ReturnsObject (d : inst).

Coercion Completes : completion >-> construction.

Record DirectiveContructor := mkDirective {
  name : jsstring;
  construct : node → construction;
  onChange : option (inst → node → MutationRecord → completion);
  onDetach : option (inst → node → completion);
}.

(** ** The store

    [props] holds the symbol-keyed own properties of node objects; [symbols]
    counts the symbols minted and [objects] bounds the identities of the
    objects in use, so that the next one is fresh; [observing] holds, per manager (named by its
    symbol), the roots its [MutationObserver] is registered on, each with
    its [attributeFilter]; [trace] lists the calls into user code. *)

Inductive Event :=
| Constructed (el : node) (d : inst)
| Changed (d : inst) (el : node) (m : MutationRecord)
| Detached (d : inst) (el : node).

Record Heap := mkHeap {
  props : gmap (node * sym) inst;
  symbols : nat;
  objects : nat;
  observing : gmap sym (list (node * option (list jsstring)));
  trace : list Event;
}.

Definition empty_heap : Heap := mkHeap ∅ 0 0 ∅ [].

Inductive Exn := TypeError | UserError.

Inductive Outcome (A : Type) := Ok (a : A) | Raised (e : Exn).
Arguments Ok {A} a.
Arguments Raised {A} e.

Definition M (A : Type) : Type := Heap → Outcome A * Heap.

Definition ret {A} (a : A) : M A := λ h, (Ok a, h).

Definition bind {A B} (c : M A) (k : A → M B) : M B :=
  λ h, match c h with
       | (Ok a, h') => k a h'
       | (Raised e, h') => (Raised e, h')
       end.

Definition throw {A} (e : Exn) : M A := λ h, (Raised e, h).

Notation "'let*' x := c 'in' k" := (bind c (λ x, k))
  (at level 10, x binder, c at level 100, k at level 200).
Notation "c ;;; k" := (bind c (λ _, k))
  (at level 100, k at level 200, right associativity).

(** [for (const x of l) body] *)
Fixpoint for_of {A} (l : list A) (body : A → M unit) : M unit :=
  match l with
  | [] => ret tt
  | x :: t => body x ;;; for_of t body
  end.

Definition get_prop (el : node) (k : sym) : M (option inst) :=
  λ h, (Ok (props h !! (el, k)), h).

Definition set_prop (el : node) (k : sym) (d : inst) : M unit :=
  λ h, (Ok tt, mkHeap (<[(el, k) := d]> (props h)) (symbols h) (objects h)
                      (observing h) (trace h)).

Definition delete_prop (el : node) (k : sym) : M unit :=
  λ h, (Ok tt, mkHeap (delete (el, k) (props h)) (symbols h) (objects h)
                      (observing h) (trace h)).

Definition log (e : Event) : M unit :=
  λ h, (Ok tt, mkHeap (props h) (symbols h) (objects h) (observing h)
                      (trace h ++ [e])).

Definition user (c : completion) : M unit :=
  match c with Returns => ret tt | Throws => throw UserError end.

(** [Symbol(description)]: a symbol no earlier call returned. *)
Definition Symbol : M sym :=
  λ h, (Ok (symbols h), mkHeap (props h) (S (symbols h)) (objects h)
                               (observing h) (trace h)).

(** The object [d] is in use: no object created later is [d]. *)
Definition in_use (d : inst) : M unit :=
  λ h, (Ok tt, mkHeap (props h) (symbols h) (Nat.max (objects h) (S d))
                      (observing h) (trace h)).

(** [new directive(el)]: a fresh object [d], then the constructor body with
    [d] as [this].  The expression yields [d], unless the body returns an
    object of its own. *)
Definition new_directive (D : DirectiveContructor) (el : node) : M inst :=
  λ h, let d := objects h in
       (log (Constructed el d) ;;;
        match construct D el with
        | Completes c => user c ;;; ret d
        | ReturnsObject d' => in_use d' ;;; ret d'
        end)
         (mkHeap (props h) (symbols h) (S d) (observing h) (trace h)).

(** [d.onDetach?.(el)] *)
Definition call_onDetach (D : DirectiveContructor) (d : inst) (el : node) : M unit :=
  match onDetach D with
  | Some f => log (Detached d el) ;;; user (f d el)
  | None => ret tt
  end.

(** [d.onChange?.(el, mutation)] *)
Definition call_onChange (D : DirectiveContructor) (d : inst) (el : node)
    (m : MutationRecord) : M unit :=
  match onChange D with
  | Some f => log (Changed d el m) ;;; user (f d el m)
  | None => ret tt
  end.

(** ** [DirectiveManager] *)

Record DirectiveManager := mkManager {
  symbol : sym;
  attrsToObserve : list jsstring;
  directive : DirectiveContructor;
  selector : jsstring;
}.

Section Manager.

Variable host : Host.

(** [el.matches(selector)]: only elements have the method. *)
Definition call_matches (el : node) (sel : jsstring) : M bool :=
  if instanceof_Element host el then ret (matches host el sel)
  else throw TypeError.

(** The element descendants of [root] that [sel] selects with [root] as
    scope, in tree order. *)
Definition matching_descendants (root : node) (sel : jsstring) : list node :=
  filter (λ n, instanceof_Element host n && selects host root n sel = true)
         (descendants host root).

(** [root.querySelectorAll(selector)]: a static list; only a [ParentNode]
    has the method. *)
Definition querySelectorAll (root : node) (sel : jsstring) : M (list node) :=
  if is_ParentNode host root then ret (matching_descendants root sel)
  else throw TypeError.

(** [#attach] *)
Definition attach (this : DirectiveManager) (element : node) : M bool :=
  let* v := get_prop element (symbol this) in
  match v with
  | Some _ => ret false
  | None =>
      let* d := new_directive (directive this) element in
      set_prop element (symbol this) d ;;;
      ret true
  end.

(** [#detach] *)
Definition detach (this : DirectiveManager) (el : node) : M unit :=
  let* v := get_prop el (symbol this) in
  match v with
  | None => ret tt
  | Some d =>
      call_onDetach (directive this) d el ;;;
      delete_prop el (symbol this)
  end.

(** [update] *)
Definition update (this : DirectiveManager) (el : node) (mutation : MutationRecord)
    : M unit :=
  let* attached := attach this el in
  if attached then ret tt
  else
    let* v := get_prop el (symbol this) in
    match v with
    | Some d => call_onChange (directive this) d el mutation
    | None => throw TypeError
    end.

(** [attachTo] *)
Definition attachTo (this : DirectiveManager) (root : node) : M unit :=
  (let* hit := (if instanceof_Element host root
                then call_matches root (selector this) else ret false) in
   if hit then attach this root ;;; ret tt else ret tt) ;;;
  let* els := querySelectorAll root (selector this) in
  for_of els (λ el, attach this el ;;; ret tt).

(** [detachFrom] *)
Definition detachFrom (this : DirectiveManager) (root : node) : M unit :=
  (let* els := querySelectorAll root (selector this) in
   for_of els (detach this)) ;;;
  let* hit := call_matches root (selector this) in
  if hit then detach this root else ret tt.

(** The body of the loop over the records of a batch. *)
Definition reduce (this : DirectiveManager) (m : MutationRecord) : M unit :=
  (match type m with
   | childList =>
       for_of (addedNodes m) (λ node,
         if instanceof_Element host node then attachTo this node else ret tt) ;;;
       for_of (removedNodes m) (λ node,
         if instanceof_Element host node then detachFrom this node else ret tt)
   | _ => ret tt
   end) ;;;
  match type m with
  | attributes =>
      if instanceof_Element host (target m) then
        let el := target m in
        let* hit := call_matches el (selector this) in
        if hit then update this el m else detach this el
      else ret tt
  | _ => ret tt
  end.

(** The callback of [observer] (the field [mutationObserver] holds a second
    observer with the same callback, which is never started). *)
Definition observer (this : DirectiveManager) (mutations : list MutationRecord)
    : M unit :=
  for_of mutations (reduce this).

(** [observe]: registers [observer] on [root]; a root already registered
    has its options replaced. *)
Definition observe (this : DirectiveManager) (root : node) : M unit :=
  λ h, let filter_opt := match attrsToObserve this with
                         | [] => None
                         | l => Some l
                         end in
       let old := default [] (observing h !! symbol this) in
       let others := filter (λ r, r.1 ≠ root) old in
       (Ok tt, mkHeap (props h) (symbols h) (objects h)
                      (<[symbol this := others ++ [(root, filter_opt)]]> (observing h))
                      (trace h)).

(** [observer.disconnect()] *)
Definition observer_disconnect (this : DirectiveManager) : M unit :=
  λ h, (Ok tt, mkHeap (props h) (symbols h) (objects h)
                      (delete (symbol this) (observing h)) (trace h)).

(** [disconnect] *)
Definition disconnect (this : DirectiveManager) (root : node) : M unit :=
  observer_disconnect this ;;;
  let* els := querySelectorAll root (selector this) in
  for_of els (detach this).

(** [getDir] *)
Definition getDir (this : DirectiveManager) (element : node) : M (option inst) :=
  get_prop element (symbol this).

(** [new DirectiveManager(directive, selector)] *)
Definition new_DirectiveManager (D : DirectiveContructor) (sel : jsstring)
    : M DirectiveManager :=
  let* k := Symbol in
  ret (mkManager k (extractAttributesFromSelector sel) D sel).

(** [registerDirective] *)
Definition registerDirective (root : node) (sel : jsstring)
    (D : DirectiveContructor) : M DirectiveManager :=
  let* dirManager := new_DirectiveManager D sel in
  attachTo dirManager root ;;;
  observe dirManager root ;;;
  ret dirManager.

End Manager.


(** ** Tokens of a selector, for the statements about the extractor *)

(** [x] is one character of [[a-zA-Z_:]] followed by characters of
    [[-a-zA-Z0-9_:.]]. *)
Definition is_name (x : jsstring) : Prop :=
  ∃ c r, x = c :: r ∧ Pattern.is_name_start c = true
         ∧ Forall (λ d, Pattern.is_name_char d = true) r.

(** At index [i] of [s] stands an opening bracket, then white space, then
    the name [x], and the name ends there. *)
Definition token_at (s : jsstring) (i : nat) (x : jsstring) : Prop :=
  ∃ pre ws post,
    s = pre ++ [91%N] ++ ws ++ x ++ post
    ∧ length pre = i
    ∧ Forall (λ c, Pattern.is_space c = true) ws
    ∧ is_name x
    ∧ match post with
      | c :: _ => Pattern.is_name_char c = false
      | [] => True
      end.

(** Every index of [s] tried in turn, the first one being numbered [off]:
    the indices where the pattern matches, each with its capture. *)
Fixpoint tokens_from (off : nat) (s : jsstring) : list (nat * jsstring) :=
  match s with
  | [] => []
  | _ :: t =>
      match Pattern.match_at s with
      | Some (x, _) => (off, x) :: tokens_from (S off) t
      | None => tokens_from (S off) t
      end
  end.

(** ** The extractor as the specification words it

    Follows the specification: the attribute names that appear in bracketed
    attribute predicates, [[name]], [[name=value]], [[name|=value]] and so
    on, with operators and values ignored, without duplicates and in order
    of first occurrence; malformed input yields the well-formed tokens that
    can be recognized.  Predicates are read as the selector syntax writes
    them: an opening bracket, white space, the name with an optional
    namespace prefix that ends in a bar, then nothing more or an operator
    and a value, which is an identifier or a string in single or double
    quotes, and the closing bracket.  The name is whatever stands there, up
    to the first character that cannot belong to a name: white space, a
    bracket, a quote, or the first character of an operator.  A bracket
    that no name follows opens no predicate.  Escapes are not
    interpreted.  Nothing here is taken from the pattern of the code. *)

Module SpecSide.

Local Open Scope N_scope.

Inductive mode := Outside | Opened | InName | InPredicate | InString (q : N).

(** White space of the selector syntax: space, tab, line feed, form feed,
    carriage return. *)
Definition white (c : N) : bool :=
  (c =? 32) || (c =? 9) || (c =? 10) || (c =? 12) || (c =? 13).

Definition is_quote (c : N) : bool := (c =? 34) || (c =? 39).

Definition opens (c : N) : bool := c =? 91.

Definition closes (c : N) : bool := c =? 93.

(** The first character of an operator: [=], [~=], [|=], [^=], [$=],
    [*=]. *)
Definition operator (c : N) : bool :=
  (c =? 61) || (c =? 126) || (c =? 124) || (c =? 94) || (c =? 36) || (c =? 42).

(** A character that cannot belong to an attribute name. *)
Definition ends_name (c : N) : bool :=
  white c || opens c || closes c || operator c || is_quote c.

(** A bar that is not the start of the operator [|=]: it ends a namespace
    prefix. *)
Definition namespace_bar (c : N) (t : jsstring) : bool :=
  (c =? 124) && match t with
                | d :: _ => negb (d =? 61)
                | [] => true
                end.

(** After the name: the predicate closes, a quoted value opens, or the
    operator and value go on. *)
Definition after_name (c : N) : mode :=
  if closes c then Outside else if is_quote c then InString c else InPredicate.

Definition outside (c : N) : mode :=
  if opens c then Opened else Outside.

Fixpoint scan (m : mode) (cur : jsstring) (s : jsstring) : list jsstring :=
  match s with
  | [] => match m with InName => [cur] | _ => [] end
  | c :: t =>
      match m with
      | Outside => scan (outside c) [] t
      | Opened =>
          if white c then scan Opened [] t
          else if namespace_bar c t || (c =? 42) then scan Opened [] t
          else if ends_name c then scan (outside c) [] t
          else scan InName [c] t
      | InName =>
          if namespace_bar c t then scan Opened [] t
          else if ends_name c then cur :: scan (after_name c) [] t
          else scan InName (cur ++ [c]) t
      | InPredicate => scan (after_name c) [] t
      | InString q => scan (if c =? q then InPredicate else InString q) [] t
      end
  end.

Definition attribute_names (selector : jsstring) : list jsstring :=
  foldl set_add [] (scan Outside [] selector).


End SpecSide.


(** ** Calls on a manager, for statements that quantify over its operations *)

Inductive Call :=
| CallAttach (el : node)
| CallDetach (el : node)
| CallUpdate (el : node) (m : MutationRecord)
| CallAttachTo (root : node)
| CallDetachFrom (root : node)
| CallObserve (root : node)
| CallDisconnect (root : node)
| CallBatch (mutations : list MutationRecord).

Definition run_call (host : Host) (this : DirectiveManager) (c : Call) : M unit :=
  match c with
  | CallAttach el => attach this el ;;; ret tt
  | CallDetach el => detach this el
  | CallUpdate el m => update this el m
  | CallAttachTo root => attachTo host this root
  | CallDetachFrom root => detachFrom host this root
  | CallObserve root => observe this root
  | CallDisconnect root => disconnect host this root
  | CallBatch ms => observer host this ms
  end.

(** A script: calls on any managers, each against its own snapshot of the
    tree; an exception ends a call, not the script. *)
Fixpoint run_script (cs : list (Host * DirectiveManager * Call)) (h : Heap) : Heap :=
  match cs with
  | [] => h
  | (host, this, c) :: t => run_script t (run_call host this c h).2
  end.

(** The body of the loops of [attachTo]: the result of [#attach] is dropped. *)
Definition attach_body (this : DirectiveManager) : node → M unit :=
  λ el, attach this el ;;; ret tt.

(** The number of calls of [onDetach] for node [n] in a trace. *)
Definition is_detach_of (n : node) (e : Event) : bool :=
  match e with
  | Detached _ el => Nat.eqb el n
  | _ => false
  end.

Definition onDetach_calls (n : node) (evs : list Event) : nat :=
  length (filter (λ e, is_detach_of n e = true) evs).

(** The number of constructor calls for node [n] in a trace. *)
Definition is_construct_of (n : node) (e : Event) : bool :=
  match e with
  | Constructed el _ => Nat.eqb el n
  | _ => false
  end.

Definition constructor_calls (n : node) (evs : list Event) : nat :=
  length (filter (λ e, is_construct_of n e = true) evs).

(** The slot of [el] under [k], once filled, keeps its instance, and no
    constructor call for [el] is made. *)
Definition settled (el : node) (k : sym) : relation Heap := λ h h',
  ∀ d, props h !! (el, k) = Some d →
       props h' !! (el, k) = Some d
       ∧ constructor_calls el (trace h') = constructor_calls el (trace h).

(** The calls that attach and never detach: [#attach], [attachTo] and
    [update]. *)
Definition attaching (c : Call) : Prop :=
  match c with
  | CallAttach _ | CallAttachTo _ | CallUpdate _ _ => True
  | _ => False
  end.

(** The calls of [onDetach] that a teardown of the nodes [els] makes, from
    the slots in [h]: one per node that holds an instance, in the order of
    [els], when the class has the callback. *)
Definition detach_calls (D : DirectiveContructor) (k : sym) (h : Heap)
    (els : list node) : list Event :=
  flat_map (λ el, match props h !! (el, k), onDetach D with
                  | Some d, Some _ => [Detached d el]
                  | _, _ => []
                  end) els.

(** The slots of [els] under [k] erased. *)
Definition erase_all (k : sym) (els : list node) (m : gmap (node * sym) inst)
  : gmap (node * sym) inst :=
  foldl (λ m el, delete (el, k) m) m els.

(** A class none of whose entry points throws, and whose constructor
    returns no object of its own. *)
Definition well_behaved (D : DirectiveContructor) : Prop :=
  (∀ el, construct D el = Returns)
  ∧ (∀ f, onChange D = Some f → ∀ d el m, f d el m = Returns)
  ∧ (∀ f, onDetach D = Some f → ∀ d el, f d el = Returns).

(** A class whose constructor returns no object of its own, so that [new]
    yields the object it created. *)
Definition plain (D : DirectiveContructor) : Prop :=
  ∀ el d, construct D el ≠ ReturnsObject d.


(** ** Well-formed stores

    Every key and instance in use has been handed out, no instance sits in
    two slots, and every stored instance was constructed for the node that
    holds it. *)

Record wf (h : Heap) : Prop := mkWf {
  wf_key : ∀ n k d, props h !! (n, k) = Some d → (k < symbols h)%nat;
  wf_obj : ∀ x d, props h !! x = Some d → (d < objects h)%nat;
  wf_inj : ∀ x y d, props h !! x = Some d → props h !! y = Some d → x = y;
  wf_born : ∀ n k d, props h !! (n, k) = Some d → Constructed n d ∈ trace h;
}.

(** ** The life of a registration

    [in_tree host root n]: [n] is in the tree observed from [root]. *)

Definition in_tree (host : Host) (root n : node) : Prop :=
  n = root ∨ n ∈ descendants host root.

Definition connected (this : DirectiveManager) (h : Heap) : Prop :=
  is_Some (observing h !! symbol this).

(** States reached by [registerDirective(root, sel, D)] followed by mutation
    batches and at most one [disconnect(root)].  Scripts change the tree
    between deliveries, so each step comes with its own snapshot; the list
    holds the snapshots so far, the latest first.  A batch is delivered only
    while the observer is connected, and [disconnect] ends that. *)
Inductive reachable (root : node) (sel : jsstring) (D : DirectiveContructor)
  : DirectiveManager → list Host → Heap → Prop :=
| reach_register host h0 this h :
    wf h0 →
    registerDirective host root sel D h0 = (Ok this, h) →
    reachable root sel D this [host] h
| reach_batch this hosts h host mutations :
    reachable root sel D this hosts h →
    connected this h →
    reachable root sel D this (host :: hosts) (observer host this mutations h).2
| reach_disconnect this hosts h host :
    reachable root sel D this hosts h →
    connected this h →
    reachable root sel D this (host :: hosts) (disconnect host this root h).2.

(** ** Relations between the store before and after a call *)

(** [steps R c]: whatever the outcome, [c] takes every store to one related
    by [R]. *)
Definition steps {A} (R : relation Heap) (c : M A) : Prop := ∀ h, R h (c h).2.

(** [returns R c]: when [c] returns normally, the store it leaves is related
    by [R] to the one it started from. *)
Definition returns {A} (R : relation Heap) (c : M A) : Prop :=
  ∀ h a h', c h = (Ok a, h') → R h h'.


(** Only slots under key [k] change; no symbol is minted. *)
Definition frame (k : sym) : relation Heap := λ h h',
  symbols h' = symbols h ∧
  ∀ n k', k' ≠ k → props h' !! (n, k') = props h !! (n, k').

(** The counters never go back. *)
Definition counters_le : relation Heap := λ h h',
  (symbols h ≤ symbols h')%nat ∧ (objects h ≤ objects h')%nat.

(** Well-formedness is kept, for a manager whose key has been minted. *)
Definition valid (k : sym) (h : Heap) : Prop := (k < symbols h)%nat ∧ wf h.

Definition keeps_valid (k : sym) : relation Heap := λ h h', valid k h → valid k h'.

(** Slots under [k] are only filled, with instances constructed during the
    call for nodes that held none. *)
Definition only_attaches (k : sym) : relation Heap := λ h h',
  (∀ x d, props h !! x = Some d → props h' !! x = Some d) ∧
  ∃ evs, trace h' = trace h ++ evs ∧
         ∀ e, e ∈ evs → ∃ n d, e = Constructed n d ∧ props h !! (n, k) = None.

(** Slots are only erased, each one after a call of [onDetach] on the
    instance it held (when the class has the callback); [evs] lists those
    calls, none of them twice. *)
Definition only_detaches (k : sym) : relation Heap := λ h h',
  (∀ x d, props h' !! x = Some d → props h !! x = Some d) ∧
  ∃ evs, trace h' = trace h ++ evs ∧ NoDup evs ∧
         ∀ e, e ∈ evs → ∃ n d, e = Detached d n ∧ props h !! (n, k) = Some d
                               ∧ props h' !! (n, k) = None.

(** Only slots of nodes in [S] change under [k], and [onDetach] is called
    only for nodes in [S]. *)
Definition detaches_within (S : node → Prop) (k : sym) : relation Heap := λ h h',
  (∀ n, ¬ S n → props h' !! (n, k) = props h !! (n, k)) ∧
  ∃ evs, trace h' = trace h ++ evs ∧
         ∀ e, e ∈ evs → ∃ d n, e = Detached d n ∧ S n.

(** Every slot under [k] that is filled afterwards was filled before, with
    the same instance, or is on a node that satisfies [P]. *)
Definition attaches_where (P : node → Prop) (k : sym) : relation Heap := λ h h',
  ∀ n d, props h' !! (n, k) = Some d → props h !! (n, k) = Some d ∨ P n.

(** [n] is an element that matches [sel] in [host]. *)
Definition matching (host : Host) (sel : jsstring) (n : node) : Prop :=
  instanceof_Element host n = true ∧ matches host n sel = true.

(** [n] is an element that [sel] selects in [host]: [n.matches(sel)] holds,
    or [n] is in the result of [r.querySelectorAll(sel)] for some node
    [r]. *)
Definition selected (host : Host) (sel : jsstring) (n : node) : Prop :=
  instanceof_Element host n = true
  ∧ (matches host n sel = true ∨ ∃ r, n ∈ matching_descendants host r sel).

(** The nodes a pass over [root] visits: [root] itself when it is an
    element that matches [sel], and the result of the subtree query of
    [root]. *)
Definition in_scope (host : Host) (sel : jsstring) (root n : node) : Prop :=
  (n = root ∧ matching host sel root)
  ∨ n ∈ matching_descendants host root sel.

(** The invariant of the reachable states: the key of the manager has been
    minted; every node that holds an instance of the manager was an element
    selected in one of the snapshots so far; and the store is well formed
    when the constructor returns no object of its own. *)
Definition stored_ok (sel : jsstring) (this : DirectiveManager)
    (hosts : list Host) (h : Heap) : Prop :=
  (symbol this < symbols h)%nat
  ∧ selector this = sel
  ∧ hosts ≠ []
  ∧ (∀ n d, props h !! (n, symbol this) = Some d →
            ∃ host, host ∈ hosts ∧ selected host sel n)
  ∧ (plain (directive this) → wf h).

(** ** A small page, used to run the model

    Document 0 holds the elements 1, 2 and 3 and the text node 4; 2 and 3
    are inside 1.  The selector is [[open]]: elements 1 and 2 carry the
    attribute, element 3 does not. *)

Module Page.

Definition sel : jsstring := js "[open]".

Definition host : Host :=
  mkHost (λ n, match n with
               | 0 => Document
               | 1 | 2 | 3 => Element
               | _ => OtherNode
               end)
         (λ _ n _, match n with 1 | 2 => true | _ => false end)
         (λ n, match n with
               | 0 => [1; 2; 3; 4]
               | 1 => [2; 3]
               | _ => []
               end).

(** The same tree after a script removed [open] from element 1 and set it
    on element 3. *)
Definition host_toggled : Host :=
  mkHost (kind host)
         (λ _ n _, match n with 2 | 3 => true | _ => false end)
         (descendants host).

(** The same tree after a script took element 2 out of the document and
    then set [open] on it again: 2 is no longer under 0 or 1, and still
    matches. *)
Definition host_removed : Host :=
  mkHost (kind host)
         (selects host)
         (λ n, match n with
               | 0 => [1; 3; 4]
               | 1 => [3]
               | _ => []
               end).

(** A class with both callbacks, none of which throws. *)
Definition Quiet : DirectiveContructor :=
  mkDirective (js "Quiet") (λ _, Returns)
              (Some (λ _ _ _, Returns)) (Some (λ _ _, Returns)).

(** A class whose [onDetach] throws. *)
Definition Faulty : DirectiveContructor :=
  mkDirective (js "Faulty") (λ _, Returns)
              (Some (λ _ _ _, Returns)) (Some (λ _ _, Throws)).

(** A class whose constructor hands out one shared object: object 0, which
    on the empty store is the one its first call creates, as with
    [constructor(el) { if (shared) return shared; shared = this }]. *)
Definition Shared : DirectiveContructor :=
  mkDirective (js "Shared") (λ _, ReturnsObject 0)
              (Some (λ _ _ _, Returns)) (Some (λ _ _, Returns)).

(** The manager that [new DirectiveManager(D, sel)] returns in the empty
    store, and a second one made right after it. *)
Definition manager (D : DirectiveContructor) : DirectiveManager :=
  mkManager 0 (extractAttributesFromSelector sel) D sel.

Definition manager2 (D : DirectiveContructor) : DirectiveManager :=
  mkManager 1 (extractAttributesFromSelector sel) D sel.

(** The attribute [open] changed on node [n]. *)
Definition attr_changed (n : node) : MutationRecord :=
  mkMutation attributes n [] [] (Some (js "open")).

(** Node [n] was removed from its parent [p]. *)
Definition removed (p n : node) : MutationRecord :=
  mkMutation childList p [] [n] None.

(** Node [n] was added under [p]. *)
Definition added (p n : node) : MutationRecord :=
  mkMutation childList p [n] [] None.

(** The same tree under the selector [[open] b]: element 2 is a [b] inside
    element 1, which carries [open], so 2 is the one element selected. *)
Definition sel_nested : jsstring := js "[open] b".

Definition host_nested : Host :=
  mkHost (kind host)
         (λ _ n _, match n with 2 => true | _ => false end)
         (descendants host).

(** After a script removed [open] from element 1: nothing is selected. *)
Definition host_nested_closed : Host :=
  mkHost (kind host) (λ _ _ _, false) (descendants host).

Definition manager_nested (D : DirectiveContructor) : DirectiveManager :=
  mkManager 0 (extractAttributesFromSelector sel_nested) D sel_nested.

(** The same tree under the selector [:scope > [open]]: the children of the
    scope that carry [open].  Queried from the document it selects element
    1, queried from element 1 it selects element 2, and no element matches
    it, since no element is its own child. *)
Definition sel_scoped : jsstring := js ":scope > [open]".

Definition host_scoped : Host :=
  mkHost (kind host)
         (λ scope n _, match scope, n with
                       | 0, 1 | 1, 2 => true
                       | _, _ => false
                       end)
         (descendants host).

Definition manager_scoped (D : DirectiveContructor) : DirectiveManager :=
  mkManager 0 (extractAttributesFromSelector sel_scoped) D sel_scoped.

End Page.

(** ** Further notions, for the properties beyond the claims *)

(** A childList or attributes record with the nodes that are not elements
    taken out of its node lists. *)
Definition elements_only (host : Host) (m : MutationRecord) : MutationRecord :=
  mkMutation (type m) (target m)
             (filter (λ n, instanceof_Element host n = true) (addedNodes m))
             (filter (λ n, instanceof_Element host n = true) (removedNodes m))
             (attributeName m).

(** The keys and the objects in use are below the counters, so that the
    next symbol and the next object are new. *)
Definition bounded (h : Heap) : Prop :=
  (∀ n k d, props h !! (n, k) = Some d → (k < symbols h)%nat)
  ∧ (∀ x d, props h !! x = Some d → (d < objects h)%nat).

Definition keeps_bounded (k : sym) : relation Heap := λ h h',
  (k < symbols h)%nat ∧ bounded h → (k < symbols h')%nat ∧ bounded h'.

(** The instance an [onDetach] call is made on. *)
Definition detached_instance (e : Event) : option inst :=
  match e with
  | Detached d _ => Some d
  | _ => None
  end.

(** How often [onDetach] was called on instance [d]. *)
Definition detach_count (d : inst) (evs : list Event) : nat :=
  length (filter (λ e, detached_instance e = Some d) evs).

(** The life cycle is balanced: every instance the constructor was called
    for is either stored on the node it was constructed for, with no
    [onDetach] call so far, or stored nowhere, after exactly one [onDetach]
    call. *)
Record balanced (h : Heap) : Prop := mkBalanced {
  bal_wf : wf h;
  bal_constructed : ∀ n d, Constructed n d ∈ trace h → (d < objects h)%nat;
  bal_detached : ∀ e d, e ∈ trace h → detached_instance e = Some d →
                        (d < objects h)%nat;
  bal_life : ∀ n d, Constructed n d ∈ trace h →
      ((∃ k, props h !! (n, k) = Some d) ∧ detach_count d (trace h) = 0%nat)
      ∨ ((∀ x, props h !! x ≠ Some d) ∧ detach_count d (trace h) = 1%nat);
}.

Definition keeps_balanced (k : sym) : relation Heap := λ h h',
  (k < symbols h)%nat ∧ balanced h → (k < symbols h')%nat ∧ balanced h'.

(** A class that implements [onDetach], none of whose entry points throws,
    and whose constructor returns no object of its own. *)
Definition tidy (D : DirectiveContructor) : Prop :=
  well_behaved D ∧ is_Some (onDetach D).

(** [f] reads the same before and after. *)
Definition keeps {A} (f : Heap → A) : relation Heap := λ h h', f h' = f h.

(** The calls into user code made in between all satisfy [P]. *)
Definition calls_only (P : Event → Prop) : relation Heap := λ h h',
  ∃ evs, trace h' = trace h ++ evs ∧ ∀ e, e ∈ evs → P e.

(** The node an event is about. *)
Definition event_node (e : Event) : node :=
  match e with
  | Constructed el _ => el
  | Changed _ el _ => el
  | Detached _ el => el
  end.

Definition is_Constructed (e : Event) : Prop :=
  match e with Constructed _ _ => True | _ => False end.

Definition is_Detached (e : Event) : Prop :=
  match e with Detached _ _ => True | _ => False end.

Definition is_Changed (e : Event) : Prop :=
  match e with Changed _ _ _ => True | _ => False end.
(** * Properties *)

(** ** Equations of the primitives *)

Section Equations.

Variable this : DirectiveManager.

Let k := symbol this.
Let D := directive this.

Lemma attach_present h el d :
  props h !! (el, k) = Some d → attach this el h = (Ok false, h).
Proof. intros H. unfold attach, bind, get_prop. fold k. rewrite H. done. Qed.

Lemma attach_absent h el :
  props h !! (el, k) = None →
  attach this el h =
    match construct D el with
    | Completes Returns =>
        (Ok true, mkHeap (<[(el, k) := objects h]> (props h)) (symbols h)
                         (S (objects h)) (observing h)
                         (trace h ++ [Constructed el (objects h)]))
    | Completes Throws =>
        (Raised UserError, mkHeap (props h) (symbols h) (S (objects h))
                                  (observing h)
                                  (trace h ++ [Constructed el (objects h)]))
    | ReturnsObject d =>
        (Ok true, mkHeap (<[(el, k) := d]> (props h)) (symbols h)
                         (Nat.max (S (objects h)) (S d)) (observing h)
                         (trace h ++ [Constructed el (objects h)]))
    end.
Proof.
  intros H. unfold attach, bind, get_prop. fold k. rewrite H.
  unfold new_directive, bind, log, user, in_use. fold D. simpl.
  destruct (construct D el) as [[|]|d]; reflexivity.
Qed.

Lemma detach_absent h el :
  props h !! (el, k) = None → detach this el h = (Ok tt, h).
Proof. intros H. unfold detach, bind, get_prop. fold k. rewrite H. done. Qed.

Lemma detach_present h el d :
  props h !! (el, k) = Some d →
  detach this el h =
    match onDetach D with
    | None =>
        (Ok tt, mkHeap (delete (el, k) (props h)) (symbols h) (objects h)
                       (observing h) (trace h))
    | Some f =>
        match f d el with
        | Returns =>
            (Ok tt, mkHeap (delete (el, k) (props h)) (symbols h) (objects h)
                           (observing h) (trace h ++ [Detached d el]))
        | Throws =>
            (Raised UserError, mkHeap (props h) (symbols h) (objects h)
                                      (observing h) (trace h ++ [Detached d el]))
        end
    end.
Proof.
  intros H. unfold detach, bind, get_prop. fold k. rewrite H.
  unfold call_onDetach. fold D. destruct (onDetach D) as [f|]; simpl.
  - unfold bind, log, user. destruct (f d el); reflexivity.
  - destruct h; reflexivity.
Qed.

Lemma update_present h el m d :
  props h !! (el, k) = Some d →
  update this el m h =
    match onChange D with
    | None => (Ok tt, h)
    | Some f =>
        (match f d el m with Returns => Ok tt | Throws => Raised UserError end,
         mkHeap (props h) (symbols h) (objects h) (observing h)
                (trace h ++ [Changed d el m]))
    end.
Proof.
  intros H. unfold update, bind. rewrite (attach_present _ _ _ H).
  unfold get_prop. fold k. rewrite H. unfold call_onChange. fold D.
  destruct (onChange D) as [f|]; [|done].
  unfold bind, log, user. simpl. destruct (f d el m); reflexivity.
Qed.

Lemma update_absent h el m :
  props h !! (el, k) = None →
  update this el m h =
    (match construct D el with
     | Completes Throws => Raised UserError
     | _ => Ok tt
     end,
     (attach this el h).2).
Proof.
  intros H. unfold update, bind. rewrite (attach_absent _ _ H).
  destruct (construct D el) as [[|]|d]; reflexivity.
Qed.

(** A record of type [attributes] whose target is an element. *)
Lemma reduce_attributes host h m :
  type m = attributes →
  instanceof_Element host (target m) = true →
  reduce host this m h =
    if matches host (target m) (selector this)
    then update this (target m) m h
    else detach this (target m) h.
Proof.
  intros HT HE. unfold reduce. rewrite HT, HE. unfold bind at 1. unfold ret at 1.
  unfold bind, call_matches. rewrite HE. unfold ret.
  destruct (matches host (target m) (selector this)); reflexivity.
Qed.

End Equations.

(** ** C1: the four rows of the transition table for an attribute change *)

(** C1.  A mutation record of type [attributes] on an element, processed by
    the reducer of a manager with key [k]: (1) the element matches and holds
    no instance: an instance is constructed and stored under [k]; (2) it
    matches and holds [d]: [onChange(el, record)] is invoked on [d] (when
    the class implements it), nothing is constructed and the store is
    unchanged; (3) it does not match and holds [d]: [onDetach] is invoked on
    [d] (when implemented) and the slot is erased; (4) it does not match and
    holds nothing: the state is unchanged.  Callbacks are taken to return
    normally. *)
Theorem C1_attribute_change host this m h :
  type m = attributes →
  instanceof_Element host (target m) = true →
  let el := target m in
  let k := symbol this in
  let D := directive this in
  (matches host el (selector this) = true → props h !! (el, k) = None →
   construct D el = Returns →
   reduce host this m h =
     (Ok tt, mkHeap (<[(el, k) := objects h]> (props h)) (symbols h)
                    (S (objects h)) (observing h)
                    (trace h ++ [Constructed el (objects h)])))
  ∧ (∀ d, matches host el (selector this) = true → props h !! (el, k) = Some d →
       (∀ f, onChange D = Some f → f d el m = Returns →
          reduce host this m h =
            (Ok tt, mkHeap (props h) (symbols h) (objects h) (observing h)
                           (trace h ++ [Changed d el m])))
       ∧ (onChange D = None → reduce host this m h = (Ok tt, h)))
  ∧ (∀ d, matches host el (selector this) = false → props h !! (el, k) = Some d →
       (∀ f, onDetach D = Some f → f d el = Returns →
          reduce host this m h =
            (Ok tt, mkHeap (delete (el, k) (props h)) (symbols h) (objects h)
                           (observing h) (trace h ++ [Detached d el])))
       ∧ (onDetach D = None →
          reduce host this m h =
            (Ok tt, mkHeap (delete (el, k) (props h)) (symbols h) (objects h)
                           (observing h) (trace h))))
  ∧ (matches host el (selector this) = false → props h !! (el, k) = None →
     reduce host this m h = (Ok tt, h)).
Proof.
  intros HT HE el k D. rewrite (reduce_attributes _ _ _ _ HT HE). fold el.
  split; [|split; [|split]].
  - intros -> Hn Hc. rewrite (update_absent _ _ _ _ Hn), (attach_absent _ _ _ Hn).
    fold D. rewrite Hc. reflexivity.
  - intros d -> Hd. rewrite (update_present _ _ _ _ _ Hd). fold D. split.
    + intros f -> ->. reflexivity.
    + intros ->. reflexivity.
  - intros d -> Hd. rewrite (detach_present _ _ _ _ Hd). fold D. split.
    + intros f -> ->. reflexivity.
    + intros ->. reflexivity.
  - intros -> Hn. apply detach_absent. exact Hn.
Qed.

(** The four rows on the page, from the state after registration, where
    elements 1 and 2 hold the instances 0 and 1: element 3 gains [open]
    (row 1), an attribute of element 2 changes while it matches (row 2),
    element 1 loses [open] (row 3), an attribute of element 3 changes while
    it does not match (row 4). *)
Lemma C1_attribute_change_witness :
  let this := Page.manager Page.Quiet in
  let h := (registerDirective Page.host 0 Page.sel Page.Quiet empty_heap).2 in
  reduce Page.host_toggled this (Page.attr_changed 3) h
  = (Ok tt, mkHeap (<[(3, 0) := 2]> (props h)) 1 3 (observing h)
                   (trace h ++ [Constructed 3 2]))
  ∧ reduce Page.host this (Page.attr_changed 2) h
    = (Ok tt, mkHeap (props h) 1 2 (observing h)
                     (trace h ++ [Changed 1 2 (Page.attr_changed 2)]))
  ∧ reduce Page.host_toggled this (Page.attr_changed 1) h
    = (Ok tt, mkHeap (delete (1, 0) (props h)) 1 2 (observing h)
                     (trace h ++ [Detached 0 1]))
  ∧ reduce Page.host this (Page.attr_changed 3) h = (Ok tt, h).
Proof.
  intros this h.
  destruct (C1_attribute_change Page.host_toggled this (Page.attr_changed 3) h
              eq_refl eq_refl) as (Row1 & _).
  destruct (C1_attribute_change Page.host this (Page.attr_changed 2) h
              eq_refl eq_refl) as (_ & Row2 & _).
  destruct (C1_attribute_change Page.host_toggled this (Page.attr_changed 1) h
              eq_refl eq_refl) as (_ & _ & Row3 & _).
  destruct (C1_attribute_change Page.host this (Page.attr_changed 3) h
              eq_refl eq_refl) as (_ & _ & _ & Row4).
  split; [|split; [|split]].
  - apply Row1; vm_compute; reflexivity.
  - destruct (Row2 1%nat) as [Row2' _]; [vm_compute; reflexivity..|].
    apply (Row2' (λ _ _ _, Returns)); reflexivity.
  - destruct (Row3 0%nat) as [Row3' _]; [vm_compute; reflexivity..|].
    apply (Row3' (λ _ _, Returns)); reflexivity.
  - apply Row4; vm_compute; reflexivity.
Defined.

(** ** The model on the scenarios of the documentation *)

(** Registration scans the document: elements 1 and 2 match and get an
    instance each, element 3 and the text node 4 do not. *)
Example register_page :
  let r := registerDirective Page.host 0 Page.sel Page.Quiet empty_heap in
  r.1 = Ok (Page.manager Page.Quiet)
  ∧ map_to_list (props r.2) = [((2, 0), 1); ((1, 0), 0)]
  ∧ trace r.2 = [Constructed 1 0; Constructed 2 1]
  ∧ observing r.2 !! 0 = Some [(0, Some [js "open"])].
Proof. repeat split; vm_compute; reflexivity. Qed.

(** Element 1 loses [open]: [onDetach] once, slot erased.  It gets [open]
    back: the constructor runs again and a new instance is stored. *)
Example match_loss_then_regain :
  let this := Page.manager Page.Quiet in
  let h0 := (registerDirective Page.host 0 Page.sel Page.Quiet empty_heap).2 in
  let h1 := (observer Page.host_toggled this [Page.attr_changed 1] h0).2 in
  let h2 := (observer Page.host this [Page.attr_changed 1] h1).2 in
  props h0 !! (1, 0) = Some 0
  ∧ props h1 !! (1, 0) = None
  ∧ trace h1 = trace h0 ++ [Detached 0 1]
  ∧ props h2 !! (1, 0) = Some 2
  ∧ trace h2 = trace h1 ++ [Constructed 1 2].
Proof. repeat split; vm_compute; reflexivity. Qed.

(** Element 2 is outside the document at registration, is added, has an
    attribute changed, and is removed again: one constructor call, one
    [onChange], one [onDetach], all for element 2, none for element 1. *)
Example add_change_remove :
  let this := Page.manager Page.Quiet in
  let h0 := (registerDirective Page.host_removed 0 Page.sel Page.Quiet empty_heap).2 in
  let h1 := (observer Page.host this [Page.added 1 2] h0).2 in
  let h2 := (observer Page.host this [Page.attr_changed 2] h1).2 in
  let h3 := (observer Page.host_removed this [Page.removed 1 2] h2).2 in
  trace h0 = [Constructed 1 0]
  ∧ trace h1 = trace h0 ++ [Constructed 2 1]
  ∧ trace h2 = trace h1 ++ [Changed 1 2 (Page.attr_changed 2)]
  ∧ trace h3 = trace h2 ++ [Detached 1 2]
  ∧ map_to_list (props h3) = [((1, 0), 0)].
Proof. repeat split; vm_compute; reflexivity. Qed.

(** Text nodes in a batch are skipped. *)
Example text_node_skipped :
  let this := Page.manager Page.Quiet in
  let h0 := (registerDirective Page.host 0 Page.sel Page.Quiet empty_heap).2 in
  observer Page.host this [Page.added 0 4; Page.removed 0 4] h0 = (Ok tt, h0).
Proof. vm_compute. reflexivity. Qed.

(** With the selector [:scope > [open]], the query from element 1 returns
    element 2, which does not match on its own: [attachTo] on element 1
    stores an instance on element 2 and none on element 1. *)
Example scoped_query :
  let this := Page.manager_scoped Page.Quiet in
  let h := (attachTo Page.host_scoped this 1 (mkHeap ∅ 1 0 ∅ [])).2 in
  matching_descendants Page.host_scoped 1 Page.sel_scoped = [2]
  ∧ matches Page.host_scoped 2 Page.sel_scoped = false
  ∧ map_to_list (props h) = [((2, 0), 0)]
  ∧ trace h = [Constructed 2 0].
Proof. repeat split; vm_compute; reflexivity. Qed.

(** A constructor that returns one shared object: registration stores that
    object on elements 1 and 2, after two constructor calls. *)
Example shared_object :
  let h := (registerDirective Page.host 0 Page.sel Page.Shared empty_heap).2 in
  props h !! (1, 0) = Some 0
  ∧ props h !! (2, 0) = Some 0
  ∧ trace h = [Constructed 1 0; Constructed 2 1]
  ∧ objects h = 2%nat.
Proof. repeat split; vm_compute; reflexivity. Qed.

(** ** Relational reasoning about monadic code

    For a preorder [R], [steps R] is closed under the combinators of the
    monad, so a property of [#attach] and [#detach] lifts to the passes and
    to the reducer. *)

Section Steps.

Context (R : relation Heap) `{!PreOrder R}.

Lemma steps_ret {A} (a : A) : steps R (ret a).
Proof. intros h. simpl. reflexivity. Qed.

Lemma steps_throw {A} e : steps R (@throw A e).
Proof. intros h. simpl. reflexivity. Qed.

Lemma steps_get_prop el k : steps R (get_prop el k).
Proof. intros h. simpl. reflexivity. Qed.

Lemma steps_user c : steps R (user c).
Proof. destruct c; [apply steps_ret | apply steps_throw]. Qed.

Lemma steps_bind {A B} (c : M A) (f : A → M B) :
  steps R c → (∀ a, steps R (f a)) → steps R (bind c f).
Proof.
  intros Hc Hf h. unfold bind. specialize (Hc h).
  destruct (c h) as [[a|e] h']; simpl in *; [|done].
  etrans; [exact Hc | apply Hf].
Qed.

Lemma steps_for_of {A} (l : list A) (body : A → M unit) :
  (∀ x, x ∈ l → steps R (body x)) → steps R (for_of l body).
Proof.
  induction l as [|x t IH]; intros Hb; simpl.
  - apply steps_ret.
  - apply steps_bind; [apply Hb; left | intros _; apply IH].
    intros y Hy. apply Hb. by right.
Qed.

Lemma steps_call_matches host el sel : steps R (call_matches host el sel).
Proof.
  unfold call_matches. destruct (instanceof_Element host el);
    [apply steps_ret | apply steps_throw].
Qed.

Lemma steps_querySelectorAll host root sel : steps R (querySelectorAll host root sel).
Proof.
  unfold querySelectorAll. destruct (is_ParentNode host root);
    [apply steps_ret | apply steps_throw].
Qed.

(** The passes and the reducer inherit what [#attach], [#detach] and the
    [onChange] call establish. *)
Variable host : Host.
Variable this : DirectiveManager.

Hypothesis steps_attach_on_match :
  ∀ el, selected host (selector this) el → steps R (attach this el).
Hypothesis steps_detach : ∀ el, steps R (detach this el).
Hypothesis steps_onChange :
  ∀ d el m, steps R (call_onChange (directive this) d el m).

Lemma steps_update el m :
  steps R (attach this el) → steps R (update this el m).
Proof.
  intros Ha. unfold update. apply steps_bind; [exact Ha|].
  intros [|]; [apply steps_ret|].
  apply steps_bind; [apply steps_get_prop|].
  intros [d|]; [apply steps_onChange | apply steps_throw].
Qed.

Lemma steps_attach_loop root :
  steps R (let* els := querySelectorAll host root (selector this) in
           for_of els (λ el, attach this el ;;; ret tt)).
Proof.
  intros h. unfold bind at 1, querySelectorAll.
  destruct (is_ParentNode host root); simpl; [|reflexivity].
  apply steps_for_of. intros el Hel.
  assert (Hs : selected host (selector this) el).
  { split; [|right; by exists root].
    apply list_elem_of_filter in Hel as [Hel _].
    by apply andb_true_iff in Hel as [HE _]. }
  apply steps_bind; [by apply steps_attach_on_match | intros; apply steps_ret].
Qed.

Lemma steps_attachTo root : steps R (attachTo host this root).
Proof.
  unfold attachTo. apply steps_bind; [|intros _; apply steps_attach_loop].
  intros h. unfold bind at 1, call_matches.
  destruct (instanceof_Element host root) eqn:HE; unfold ret at 1;
    [|reflexivity].
  destruct (matches host root (selector this)) eqn:HM; [|reflexivity].
  apply steps_bind; [|intros; apply steps_ret].
  apply steps_attach_on_match. split; [done|by left].
Qed.

Lemma steps_detach_loop root :
  steps R (let* els := querySelectorAll host root (selector this) in
           for_of els (detach this)).
Proof.
  apply steps_bind; [apply steps_querySelectorAll|].
  intros els. apply steps_for_of. intros; apply steps_detach.
Qed.

Lemma steps_detachFrom root : steps R (detachFrom host this root).
Proof.
  unfold detachFrom. apply steps_bind; [apply steps_detach_loop|].
  intros _. apply steps_bind; [apply steps_call_matches|].
  intros [|]; [apply steps_detach | apply steps_ret].
Qed.

Lemma steps_reduce m : steps R (reduce host this m).
Proof.
  unfold reduce. apply steps_bind.
  - destruct (type m); try apply steps_ret.
    apply steps_bind; [|intros _]; apply steps_for_of; intros n _;
      destruct (instanceof_Element host n); try apply steps_ret;
      [apply steps_attachTo | apply steps_detachFrom].
  - intros _. destruct (type m); try apply steps_ret.
    destruct (instanceof_Element host (target m)) eqn:HE; [|apply steps_ret].
    intros h. unfold bind, call_matches. rewrite HE. unfold ret.
    destruct (matches host (target m) (selector this)) eqn:HM;
      [|apply steps_detach].
    apply steps_update, steps_attach_on_match. split; [done|by left].
Qed.

Lemma steps_observer ms : steps R (observer host this ms).
Proof. apply steps_for_of. intros; apply steps_reduce. Qed.

Lemma steps_disconnect root :
  steps R (observer_disconnect this) → steps R (disconnect host this root).
Proof.
  intros Hd. unfold disconnect. apply steps_bind; [exact Hd|].
  intros _. apply steps_detach_loop.
Qed.

End Steps.

(** Applies a lemma of the section above and finds the preorder instance. *)
Ltac lift_steps lem := apply lem; try apply _.

(** ** The relations are preorders *)

Global Instance frame_preorder k : PreOrder (frame k).
Proof.
  split.
  - intros h. by split.
  - intros h1 h2 h3 [S1 P1] [S2 P2]. split; [congruence|].
    intros n k' Hk. rewrite P2, P1; done.
Qed.

Global Instance counters_le_preorder : PreOrder counters_le.
Proof.
  split.
  - intros h. split; lia.
  - intros h1 h2 h3 [? ?] [? ?]. split; lia.
Qed.

Global Instance keeps_valid_preorder k : PreOrder (keeps_valid k).
Proof.
  split; unfold keeps_valid.
  - intros h Hw. exact Hw.
  - intros h1 h2 h3 H1 H2 Hw. apply H2, H1, Hw.
Qed.

Global Instance only_attaches_preorder k : PreOrder (only_attaches k).
Proof.
  split.
  - intros h. split; [done|]. exists []. rewrite app_nil_r. split; [done|].
    intros e He. by apply elem_of_nil in He.
  - intros h1 h2 h3 [G1 (e1 & T1 & E1)] [G2 (e2 & T2 & E2)]. split; [auto|].
    exists (e1 ++ e2). split; [by rewrite T2, T1, app_assoc|].
    intros e [He|He]%elem_of_app; [auto|].
    destruct (E2 e He) as (n & d & -> & Hn). exists n, d. split; [done|].
    destruct (props h1 !! (n, k)) as [d'|] eqn:Hd; [|done].
    apply G1 in Hd. congruence.
Qed.

Global Instance only_detaches_preorder k : PreOrder (only_detaches k).
Proof.
  split.
  - intros h. split; [done|]. exists []. rewrite app_nil_r.
    split; [done|]. split; [constructor|].
    intros e He. by apply elem_of_nil in He.
  - intros h1 h2 h3 [G1 (e1 & T1 & N1 & E1)] [G2 (e2 & T2 & N2 & E2)].
    split; [auto|].
    exists (e1 ++ e2). split; [by rewrite T2, T1, app_assoc|]. split.
    + apply NoDup_app. split; [done|]. split; [|done].
      intros e He1 He2.
      destruct (E1 e He1) as (n & d & -> & _ & Hn).
      destruct (E2 _ He2) as (n' & d' & [= <- <-] & Hs & _). congruence.
    + intros e [He|He]%elem_of_app.
      * destruct (E1 e He) as (n & d & -> & Hs & Hn). exists n, d.
        split; [done|]. split; [done|].
        destruct (props h3 !! (n, k)) as [d'|] eqn:Hd; [|done].
        apply G2 in Hd. congruence.
      * destruct (E2 e He) as (n & d & -> & Hs & Hn). exists n, d. auto.
Qed.

Global Instance attaches_where_preorder P k : PreOrder (attaches_where P k).
Proof.
  split.
  - intros h n d Hd. by left.
  - intros h1 h2 h3 H1 H2 n d Hd.
    destruct (H2 n d Hd) as [Hd'|?]; [|by right]. by apply H1.
Qed.

(** ** What [#attach], [#detach] and the callbacks do to the store *)

Section Primitives.

Variable this : DirectiveManager.

Let k := symbol this.
Let D := directive this.

(** The ways [#attach] can end: on a node that holds an instance it reports
    [false]; on a node that holds none the constructor is called, and the
    object [d] that [new] yields is stored unless the constructor throws.
    [d] is an object in use afterwards, and it is the new object when the
    constructor returns no object of its own. *)
Lemma attach_cases h el :
  (∃ d, props h !! (el, k) = Some d ∧ attach this el h = (Ok false, h))
  ∨ (props h !! (el, k) = None ∧
     ∃ o d n, attach this el h =
            (o, mkHeap (match o with
                        | Ok _ => <[(el, k) := d]> (props h)
                        | Raised _ => props h
                        end)
                       (symbols h) n (observing h)
                       (trace h ++ [Constructed el (objects h)]))
       ∧ (objects h < n)%nat ∧ (d < n)%nat
       ∧ (plain D → d = objects h ∧ n = S (objects h))).
Proof.
  destruct (props h !! (el, k)) as [d|] eqn:E.
  - left. exists d. split; [done|]. by apply (attach_present this h el d).
  - right. split; [done|]. rewrite (attach_absent this _ _ E). fold D.
    destruct (construct D el) as [[|]|d] eqn:C.
    + exists (Ok true), (objects h), (S (objects h)).
      split; [done|]. split; [lia|]. split; [lia|done].
    + exists (Raised UserError), (objects h), (S (objects h)).
      split; [done|]. split; [lia|]. split; [lia|done].
    + exists (Ok true), d, (Nat.max (S (objects h)) (S d)).
      split; [done|]. split; [lia|]. split; [lia|].
      intros Hp. by destruct (Hp el d).
Qed.

(** The two ways [#detach] can end on a node that holds [d]. *)
Lemma detach_cases h el :
  (props h !! (el, k) = None ∧ detach this el h = (Ok tt, h))
  ∨ (∃ d evs, props h !! (el, k) = Some d ∧
       (evs = [] ∧ onDetach D = None ∨ evs = [Detached d el] ∧ is_Some (onDetach D)) ∧
       (detach this el h =
          (Ok tt, mkHeap (delete (el, k) (props h)) (symbols h) (objects h)
                         (observing h) (trace h ++ evs))
        ∨ evs = [Detached d el] ∧
          detach this el h =
            (Raised UserError, mkHeap (props h) (symbols h) (objects h)
                                      (observing h) (trace h ++ evs)))).
Proof.
  destruct (props h !! (el, k)) as [d|] eqn:E.
  - right. exists d. rewrite (detach_present this _ _ _ E). fold D.
    destruct (onDetach D) as [f|].
    + exists [Detached d el]. split; [done|]. split; [right; eauto|].
      destruct (f d el); [left | right]; done.
    + exists []. split; [done|]. split; [left; done|]. left.
      by rewrite app_nil_r.
  - left. split; [done|]. by apply detach_absent.
Qed.

Lemma onChange_cases h d el m :
  ∃ o evs, call_onChange D d el m h =
             (o, mkHeap (props h) (symbols h) (objects h) (observing h)
                        (trace h ++ evs)).
Proof.
  unfold call_onChange. destruct (onChange D) as [f|].
  - unfold bind, log, user. simpl. destruct (f d el m);
      [by exists (Ok tt), [Changed d el m] | by exists (Raised UserError), [Changed d el m]].
  - exists (Ok tt), []. rewrite app_nil_r. by destruct h.
Qed.

(** *** Frame *)

Lemma frame_attach el : steps (frame k) (attach this el).
Proof.
  intros h. destruct (attach_cases h el) as [(d & _ & ->)|(Hn & o & d1 & n1 & -> & Hlt & Hd1 & Hpl)];
    [reflexivity|].
  split; [done|]. intros n k' Hk. simpl. destruct o; [|done].
  apply lookup_insert_ne. congruence.
Qed.

Lemma frame_detach el : steps (frame k) (detach this el).
Proof.
  intros h.
  destruct (detach_cases h el) as [[_ ->]|(d & evs & _ & _ & [->|[_ ->]])];
    [reflexivity| |by split].
  split; [done|]. intros n k' Hk. simpl. apply lookup_delete_ne. congruence.
Qed.

Lemma frame_onChange d el m : steps (frame k) (call_onChange D d el m).
Proof. intros h. destruct (onChange_cases h d el m) as (o & evs & ->). done. Qed.

Lemma frame_observe root : steps (frame k) (observe this root).
Proof. intros h. done. Qed.

Lemma frame_observer_disconnect : steps (frame k) (observer_disconnect this).
Proof. intros h. done. Qed.

Lemma frame_call host c : steps (frame k) (run_call host this c).
Proof.
  pose proof frame_attach. pose proof frame_detach. pose proof frame_onChange.
  destruct c; simpl.
  - lift_steps steps_bind; [auto|]. intros. lift_steps steps_ret.
  - auto.
  - lift_steps steps_update; auto.
  - lift_steps steps_attachTo; auto.
  - lift_steps steps_detachFrom; auto.
  - apply frame_observe.
  - lift_steps steps_disconnect; auto. apply frame_observer_disconnect.
  - lift_steps steps_observer; auto.
Qed.

(** *** Well-formedness *)

Lemma wf_grow_trace h evs o :
  wf h → (objects h ≤ o)%nat →
  wf (mkHeap (props h) (symbols h) o (observing h) (trace h ++ evs)).
Proof.
  intros [K O I B] Ho. split; simpl; eauto.
  - intros x d Hd. apply O in Hd. lia.
  - intros n k' d Hd. apply elem_of_app. left. eauto.
Qed.

Lemma valid_attach el : plain D → steps (keeps_valid k) (attach this el).
Proof.
  intros HD h [Hk Hw].
  destruct (attach_cases h el) as [(d & _ & ->)|(Hn & o & d1 & n1 & -> & Hlt & Hd1 & Hpl)];
    [done|].
  destruct (Hpl HD) as [-> ->].
  split; [done|]. destruct o as [b|e]; [|by apply wf_grow_trace; [|lia]].
  destruct Hw as [K O I B]. split; simpl.
  - intros n k' d [[[= -> ->] _]|[_ Hd]]%lookup_insert_Some; eauto.
  - intros x d [[_ <-]|[_ Hd]]%lookup_insert_Some; [lia|].
    apply O in Hd. lia.
  - intros x y d [[<- <-]|[Hx Hd]]%lookup_insert_Some
                 [[<- E]|[Hy Hd']]%lookup_insert_Some; try done.
    + apply O in Hd'. lia.
    + apply O in Hd. lia.
    + eauto.
  - intros n k' d [[[= -> ->] <-]|[_ Hd]]%lookup_insert_Some;
      apply elem_of_app; [right; by left | left; eauto].
Qed.

Lemma valid_detach el : steps (keeps_valid k) (detach this el).
Proof.
  intros h [Hk Hw].
  destruct (detach_cases h el) as [[_ ->]|(d & evs & _ & _ & [->|[_ ->]])];
    [done| |by split; [|apply wf_grow_trace]].
  split; [done|]. destruct Hw as [K O I B]. split; simpl.
  - intros n k' d' [_ Hd]%lookup_delete_Some. eauto.
  - intros x d' [_ Hd]%lookup_delete_Some. eauto.
  - intros x y d' [_ Hx]%lookup_delete_Some [_ Hy]%lookup_delete_Some. eauto.
  - intros n k' d' [_ Hd]%lookup_delete_Some. apply elem_of_app. left. eauto.
Qed.

Lemma valid_onChange d el m : steps (keeps_valid k) (call_onChange D d el m).
Proof.
  intros h [Hk Hw]. destruct (onChange_cases h d el m) as (o & evs & ->).
  split; [done|]. by apply wf_grow_trace.
Qed.

Lemma valid_observe root : steps (keeps_valid k) (observe this root).
Proof. intros h [Hk [K O I B]]. split; [done|]. split; simpl; eauto. Qed.

Lemma valid_observer_disconnect : steps (keeps_valid k) (observer_disconnect this).
Proof. intros h [Hk [K O I B]]. split; [done|]. split; simpl; eauto. Qed.

Lemma valid_call host c : plain D → steps (keeps_valid k) (run_call host this c).
Proof.
  intros HD.
  pose proof (λ el, valid_attach el HD). pose proof valid_detach.
  pose proof valid_onChange.
  destruct c; simpl.
  - lift_steps steps_bind; [auto|]. intros. lift_steps steps_ret.
  - auto.
  - lift_steps steps_update; auto.
  - lift_steps steps_attachTo; auto.
  - lift_steps steps_detachFrom; auto.
  - apply valid_observe.
  - lift_steps steps_disconnect; auto. apply valid_observer_disconnect.
  - lift_steps steps_observer; auto.
Qed.

(** *** Counters *)





End Primitives.


(** ** C9: managers do not share a key and do not touch each other's slots *)




(** ** The passes *)

Lemma bind_ok {A B} (c : M A) (f : A → M B) h b h2 :
  bind c f h = (Ok b, h2) ↔ ∃ a h1, c h = (Ok a, h1) ∧ f a h1 = (Ok b, h2).
Proof.
  unfold bind. split.
  - destruct (c h) as [[a|e] h1]; [eauto|done].
  - intros (a & h1 & -> & ?). done.
Qed.

Lemma for_of_ok_cons {A} (x : A) t body h h2 :
  for_of (x :: t) body h = (Ok tt, h2) ↔
  ∃ h1, body x h = (Ok tt, h1) ∧ for_of t body h1 = (Ok tt, h2).
Proof.
  simpl. rewrite bind_ok. split.
  - intros ([] & h1 & ? & ?). eauto.
  - intros (h1 & ? & ?). eauto.
Qed.

Section Passes.

Variable host : Host.
Variable this : DirectiveManager.

Let k := symbol this.
Let D := directive this.
Let sel := selector this.

(** [attachTo] in two phases: the root, then the subtree query. *)
Lemma attachTo_eq root h :
  attachTo host this root h =
    ((if instanceof_Element host root && matches host root sel
      then attach this root ;;; ret tt else ret tt) ;;;
     if is_ParentNode host root
     then for_of (matching_descendants host root sel) (λ el, attach this el ;;; ret tt)
     else throw TypeError) h.
Proof.
  unfold attachTo, querySelectorAll, call_matches, bind, ret, throw. fold sel.
  destruct (instanceof_Element host root), (matches host root sel),
    (is_ParentNode host root); simpl; try reflexivity;
    destruct (attach this root h) as [[?|?] ?]; reflexivity.
Qed.

(** [detachFrom] of an element in two phases: the subtree query, then the
    root. *)
Lemma detachFrom_eq root h :
  instanceof_Element host root = true →
  detachFrom host this root h =
    (for_of (matching_descendants host root sel) (detach this) ;;;
     if matches host root sel then detach this root else ret tt) h.
Proof.
  intros HE. unfold detachFrom, querySelectorAll, call_matches, is_ParentNode.
  fold sel. rewrite HE. unfold instanceof_Element in HE.
  destruct (kind host root); done.
Qed.

Lemma disconnect_eq root h :
  is_ParentNode host root = true →
  disconnect host this root h =
    (observer_disconnect this ;;;
     for_of (matching_descendants host root sel) (detach this)) h.
Proof.
  intros HP. unfold disconnect, querySelectorAll. rewrite HP. reflexivity.
Qed.

(** *** [#attach] only fills empty slots *)

Lemma only_attaches_attach el : steps (only_attaches k) (attach this el).
Proof.
  intros h. destruct (attach_cases this h el) as [(d & _ & ->)|(Hn & o & d1 & n1 & -> & Hlt & Hd1 & Hpl)];
    [reflexivity|]. fold k in Hn. split; simpl.
  - intros x d Hd. destruct o; [|done].
    rewrite lookup_insert_ne; [done|]. intros <-. fold k in Hd. congruence.
  - exists [Constructed el (objects h)]. split; [done|].
    intros e ->%list_elem_of_singleton. eauto.
Qed.

Lemma attaches_where_attach (P : node → Prop) el :
  P el → steps (attaches_where P k) (attach this el).
Proof.
  intros HP h. destruct (attach_cases this h el) as [(d & _ & ->)|(Hn & o & d1 & n1 & -> & Hlt & Hd1 & Hpl)];
    [reflexivity|]. intros n d; simpl. destruct o; [|by left].
  intros [[[= <-] _]|[_ ?]]%lookup_insert_Some; [by right | by left].
Qed.

Lemma attach_body_ok el h h1 :
  attach_body this el h = (Ok tt, h1) → is_Some (props h1 !! (el, k)).
Proof.
  unfold attach_body. rewrite bind_ok. intros (b & h' & Ha & [= <-]).
  destruct (attach_cases this h el) as [(d & Hd & E)|(Hn & o & d1 & n1 & E & Hlt & Hd1 & Hpl)];
    rewrite E in Ha.
  - injection Ha as _ <-. eauto.
  - injection Ha as -> <-. simpl. rewrite lookup_insert_eq. eauto.
Qed.

Lemma attach_body_grows el : steps (only_attaches k) (attach_body this el).
Proof.
  lift_steps steps_bind; [apply only_attaches_attach|].
  intros. lift_steps steps_ret.
Qed.

Lemma attach_loop_grows els : steps (only_attaches k) (for_of els (attach_body this)).
Proof. lift_steps steps_for_of. intros; apply attach_body_grows. Qed.

Lemma attach_loop_all els h h1 :
  for_of els (attach_body this) h = (Ok tt, h1) →
  ∀ el, el ∈ els → is_Some (props h1 !! (el, k)).
Proof.
  revert h; induction els as [|x t IH]; intros h Hrun el Hel.
  - by apply elem_of_nil in Hel.
  - apply for_of_ok_cons in Hrun as (h' & Hx & Ht).
    apply elem_of_cons in Hel as [->|Hel]; [|by eapply IH].
    apply attach_body_ok in Hx as [d Hd].
    destruct (attach_loop_grows t h') as [G _]. rewrite Ht in G. eauto.
Qed.

Lemma attach_loop_noop els h :
  (∀ el, el ∈ els → is_Some (props h !! (el, k))) →
  for_of els (attach_body this) h = (Ok tt, h).
Proof.
  induction els as [|x t IH]; intros Hall; [done|].
  apply for_of_ok_cons. exists h. split; [|apply IH; intros; apply Hall; by right].
  destruct (Hall x) as [d Hd]; [by left|].
  unfold attach_body, bind. by rewrite (attach_present this h x d Hd).
Qed.

(** With a constructor that returns, the attach loop runs to its end. *)
Lemma attach_loop_returns els h :
  (∀ el, construct D el = Returns) →
  ∃ h1, for_of els (attach_body this) h = (Ok tt, h1).
Proof.
  intros HC. revert h; induction els as [|x t IH]; intros h; [by eexists|].
  assert (∃ h', attach_body this x h = (Ok tt, h')) as [h' Hx].
  { unfold attach_body, bind.
    destruct (props h !! (x, k)) as [d|] eqn:E.
    - rewrite (attach_present this h x d E). by eexists.
    - rewrite (attach_absent this h x E). fold D. rewrite HC. by eexists. }
  destruct (IH h') as [h1 Ht]. exists h1. apply for_of_ok_cons. eauto.
Qed.

Lemma only_attaches_attachTo root : steps (only_attaches k) (attachTo host this root).
Proof. lift_steps steps_attachTo. intros. apply only_attaches_attach. Qed.

Lemma attachTo_idempotent root h h1 :
  attachTo host this root h = (Ok tt, h1) →
  attachTo host this root h1 = (Ok tt, h1).
Proof.
  rewrite !attachTo_eq. intros ([] & h' & H1 & H2)%bind_ok.
  destruct (is_ParentNode host root); [|done].
  change (λ el, attach this el;;; ret ()) with (attach_body this) in *.
  change (attach this root;;; ret ()) with (attach_body this root) in *.
  destruct (attach_loop_grows (matching_descendants host root sel) h') as [G _].
  rewrite H2 in G. simpl in G.
  apply bind_ok. exists tt, h1. split; [|].
  - destruct (instanceof_Element host root && matches host root sel); [|done].
    apply attach_body_ok in H1 as [d Hd]. apply G in Hd.
    unfold attach_body, bind. by rewrite (attach_present this h1 root d Hd).
  - apply attach_loop_noop. by eapply attach_loop_all.
Qed.

End Passes.

(** ** C6: attaching is idempotent *)

Lemma constructor_calls_one n x d :
  constructor_calls n [Constructed x d] = if Nat.eqb x n then 1%nat else 0%nat.
Proof.
  unfold constructor_calls. destruct (Nat.eqb x n) eqn:E.
  - by rewrite filter_cons_True.
  - rewrite filter_cons_False; [done|]. simpl. by rewrite E.
Qed.

Lemma constructor_calls_app n evs evs' :
  constructor_calls n (evs ++ evs') = (constructor_calls n evs + constructor_calls n evs')%nat.
Proof. unfold constructor_calls. by rewrite filter_app, length_app. Qed.

Global Instance settled_preorder el k : PreOrder (settled el k).
Proof.
  split.
  - intros h d Hd. done.
  - intros h1 h2 h3 H1 H2 d Hd.
    destruct (H1 d Hd) as [Hd2 E1]. destruct (H2 d Hd2) as [Hd3 E2].
    split; [done|congruence].
Qed.

Section Settled.

Variable this : DirectiveManager.
Variable el : node.

Lemma settled_attach x : steps (settled el (symbol this)) (attach this x).
Proof.
  intros h d Hd.
  destruct (attach_cases this h x)
    as [(d' & _ & ->)|(Hn & o & d1 & n1 & -> & _)]; [done|].
  assert (Hne : x ≠ el) by (intros ->; congruence).
  simpl. split.
  - destruct o; [|done]. rewrite lookup_insert_ne; [done|congruence].
  - rewrite constructor_calls_app, constructor_calls_one.
    apply Nat.eqb_neq in Hne. rewrite Hne. lia.
Qed.

Lemma settled_onChange d x m :
  steps (settled el (symbol this)) (call_onChange (directive this) d x m).
Proof.
  intros h d' Hd. unfold call_onChange.
  destruct (onChange (directive this)) as [f|]; [|done].
  unfold bind, log, user. simpl.
  assert (E : constructor_calls el (trace h ++ [Changed d x m])
              = constructor_calls el (trace h)).
  { rewrite constructor_calls_app. unfold constructor_calls at 2. simpl. lia. }
  by destruct (f d x m).
Qed.

Lemma settled_call host c :
  attaching c → steps (settled el (symbol this)) (run_call host this c).
Proof.
  destruct c; try done; intros _; simpl.
  - lift_steps steps_bind; [apply settled_attach|]. intros. lift_steps steps_ret.
  - lift_steps steps_bind; [apply settled_attach|].
    intros [|]; [lift_steps steps_ret|].
    lift_steps steps_bind; [lift_steps steps_get_prop|].
    intros [d|]; [apply settled_onChange | lift_steps steps_throw].
  - unfold attachTo. lift_steps steps_bind.
    + lift_steps steps_bind.
      * destruct (instanceof_Element host root);
          [lift_steps steps_call_matches | lift_steps steps_ret].
      * intros [|]; [|lift_steps steps_ret].
        lift_steps steps_bind; [apply settled_attach|]. intros. lift_steps steps_ret.
    + intros _. lift_steps steps_bind; [lift_steps steps_querySelectorAll|].
      intros els. lift_steps steps_for_of. intros x _.
      lift_steps steps_bind; [apply settled_attach|]. intros. lift_steps steps_ret.
Qed.

Lemma settled_script (cs : list (Host * Call)) h :
  Forall (λ hc, attaching hc.2) cs →
  settled el (symbol this) h (run_script (map (λ hc, (hc.1, this, hc.2)) cs) h).
Proof.
  intros Hcs. revert h. induction Hcs as [|[host c] t Hc _ IH]; intros h.
  - reflexivity.
  - simpl. etrans; [by apply settled_call | apply IH].
Qed.

End Settled.

(** C6.  On a node that already holds an instance of the manager,
    [#attach] reports [false] and leaves the store as it is; [attachTo] on
    that node keeps the stored instance and does not call the constructor
    for that node; and once [attachTo] has run, running it again changes
    nothing: no construction, no constructor call.  Over the attached
    lifetime of the node: the [#attach] that filled the slot made exactly
    one constructor call for the node, and whatever attaching calls of the
    manager follow ([#attach], [attachTo], [update], on this node or any
    other, in any tree), the node keeps that one instance and the
    constructor has run exactly once for it. *)
Theorem C6_attach_idempotent host this el d h :
  props h !! (el, symbol this) = Some d →
  attach this el h = (Ok false, h)
  ∧ (let h1 := (attachTo host this el h).2 in
     props h1 !! (el, symbol this) = Some d
     ∧ ∃ evs, trace h1 = trace h ++ evs ∧ ∀ d', Constructed el d' ∉ evs)
  ∧ (∀ h1, attachTo host this el h = (Ok tt, h1) →
           attachTo host this el h1 = (Ok tt, h1)
           ∧ trace (attachTo host this el h1).2 = trace h1
           ∧ objects (attachTo host this el h1).2 = objects h1)
  ∧ (∀ h0, attach this el h0 = (Ok true, h) →
       constructor_calls el (trace h) = S (constructor_calls el (trace h0))
       ∧ ∀ cs : list (Host * Call), Forall (λ hc, attaching hc.2) cs →
           let h' := run_script (map (λ hc, (hc.1, this, hc.2)) cs) h in
           props h' !! (el, symbol this) = Some d
           ∧ constructor_calls el (trace h') = S (constructor_calls el (trace h0))).
Proof.
  intros Hd. split; [by apply (attach_present this h el d)|]. split; [|split].
  - destruct (only_attaches_attachTo host this el h) as [G (evs & T & E)].
    split; [by apply G|]. exists evs. split; [done|].
    intros d' Hin. destruct (E _ Hin) as (n & d'' & [= <- <-] & Hn). congruence.
  - intros h1 H1. apply attachTo_idempotent in H1. by rewrite H1.
  - intros h0 Hrun.
    assert (Hone : constructor_calls el (trace h) = S (constructor_calls el (trace h0))).
    { destruct (attach_cases this h0 el)
        as [(d' & _ & E)|(_ & o & d1 & n1 & E & _)]; rewrite E in Hrun; [done|].
      injection Hrun as _ <-. simpl.
      rewrite constructor_calls_app, constructor_calls_one, Nat.eqb_refl. lia. }
    split; [exact Hone|]. intros cs Hcs h'.
    destruct (settled_script this el cs h Hcs d Hd) as [Hd' Hc].
    split; [exact Hd'|]. subst h'. by rewrite Hc.
Qed.

Lemma C6_attach_idempotent_witness :
  let this := Page.manager Page.Quiet in
  let h0 := mkHeap ∅ 1 0 ∅ [] in
  let h := (attach this 1 h0).2 in
  let h' := run_script [(Page.host, this, CallAttachTo 0);
                        (Page.host, this, CallAttachTo 1);
                        (Page.host, this, CallUpdate 1 (Page.attr_changed 1))] h in
  attach this 1 h = (Ok false, h)
  ∧ constructor_calls 1 (trace h) = 1%nat
  ∧ props h' !! (1, 0) = Some 0
  ∧ constructor_calls 1 (trace h') = 1%nat.
Proof.
  intros this h0 h h'.
  destruct (C6_attach_idempotent Page.host this 1 0 h) as (H1 & _ & _ & H4).
  { vm_compute. reflexivity. }
  destruct (H4 h0) as [Hone Hlife]; [vm_compute; reflexivity|].
  split; [exact H1|]. split; [exact Hone|].
  apply (Hlife [(Page.host, CallAttachTo 0); (Page.host, CallAttachTo 1);
                (Page.host, CallUpdate 1 (Page.attr_changed 1))]).
  repeat constructor.
Defined.

(** ** C10: a root that is not an element *)

Section NonElementRoot.

Variable host : Host.
Variable this : DirectiveManager.
Variable root : node.

Let k := symbol this.
Let sel := selector this.
Let els := matching_descendants host root sel.

Hypothesis not_element : instanceof_Element host root = false.
Hypothesis parent_node : is_ParentNode host root = true.

Lemma attachTo_non_element h :
  attachTo host this root h = for_of els (attach_body this) h.
Proof.
  rewrite attachTo_eq, not_element, parent_node. reflexivity.
Qed.

Lemma root_not_queried : root ∉ els.
Proof.
  intros [HE _]%list_elem_of_filter. apply andb_true_iff in HE as [HE _].
  congruence.
Qed.

Lemma attach_loop_where : steps (attaches_where (.∈ els) k) (for_of els (attach_body this)).
Proof.
  lift_steps steps_for_of. intros el Hel.
  lift_steps steps_bind; [by apply attaches_where_attach|].
  intros. lift_steps steps_ret.
Qed.

Lemma attachTo_non_element_changes h n :
  props (attachTo host this root h).2 !! (n, k) ≠ props h !! (n, k) → n ∈ els.
Proof.
  rewrite attachTo_non_element. intros Hne.
  destruct (attach_loop_grows this els h) as [G _].
  pose proof (attach_loop_where h) as W.
  destruct (props (for_of els (attach_body this) h).2 !! (n, k)) as [d|] eqn:E.
  - destruct (W n d E) as [?|?]; [congruence|done].
  - destruct (props h !! (n, k)) as [d|] eqn:E'; [|done].
    apply G in E'. fold k in E'. congruence.
Qed.

Lemma attachTo_ignores_root_match host' h :
  kind host' = kind host →
  descendants host' = descendants host →
  (∀ n s, n ≠ root → selects host' root n s = selects host root n s) →
  attachTo host' this root h = attachTo host this root h.
Proof.
  intros HK HD HM.
  assert (HE : ∀ n, instanceof_Element host' n = instanceof_Element host n).
  { intros n. unfold instanceof_Element. by rewrite HK. }
  rewrite !attachTo_eq. unfold is_ParentNode. rewrite HK, HE, not_element. simpl.
  replace (matching_descendants host' root (selector this)) with els; [done|].
  unfold els, matching_descendants. rewrite HD. apply list_filter_iff.
  intros n. rewrite HE. destruct (instanceof_Element host n) eqn:En; [|done].
  rewrite HM; [done|]. intros ->. congruence.
Qed.

End NonElementRoot.

(** C10.  [root] is a [ParentNode] that is not an element (a document, a
    fragment) and the constructor of the class returns.  Then [attachTo] and
    [registerDirective] return normally; [matches] is never called on the
    root (what the host would answer for it changes nothing: the outcome is
    the same in every host that agrees on what the subtree query of the
    root selects among the other nodes; in the model the call itself would
    raise a [TypeError]); the slot of the root is left as it was; and every
    slot that changes belongs to an element descendant of the root returned
    by the subtree query. *)
Theorem C10_non_element_root host root sel D h :
  instanceof_Element host root = false →
  is_ParentNode host root = true →
  (∀ el, construct D el = Returns) →
  (∀ this, directive this = D → selector this = sel →
     ∃ h', attachTo host this root h = (Ok tt, h')
       ∧ props h' !! (root, symbol this) = props h !! (root, symbol this)
       ∧ (∀ n, props h' !! (n, symbol this) ≠ props h !! (n, symbol this) →
               n ∈ matching_descendants host root sel)
       ∧ (∀ host', kind host' = kind host → descendants host' = descendants host →
            (∀ n s, n ≠ root → selects host' root n s = selects host root n s) →
            attachTo host' this root h = (Ok tt, h')))
  ∧ (∃ m h', registerDirective host root sel D h = (Ok m, h')
       ∧ symbol m = symbols h
       ∧ props h' !! (root, symbol m) = props h !! (root, symbol m)
       ∧ (∀ n, props h' !! (n, symbol m) ≠ props h !! (n, symbol m) →
               n ∈ matching_descendants host root sel)).
Proof.
  intros HE HP HC.
  assert (Main : ∀ this s, directive this = D → selector this = sel →
     ∃ h', attachTo host this root s = (Ok tt, h')
       ∧ props h' !! (root, symbol this) = props s !! (root, symbol this)
       ∧ (∀ n, props h' !! (n, symbol this) ≠ props s !! (n, symbol this) →
               n ∈ matching_descendants host root sel)).
  { intros this s HD HS.
    destruct (attach_loop_returns this
                (matching_descendants host root (selector this)) s) as [h' Hrun].
    { intros el. by rewrite HD. }
    rewrite <- (attachTo_non_element host this root HE HP) in Hrun.
    pose proof (attachTo_non_element_changes host this root HE HP s) as Hch.
    rewrite Hrun, HS in Hch. simpl in Hch.
    exists h'. split; [done|]. split; [|done].
    destruct (decide (props h' !! (root, symbol this) = props s !! (root, symbol this)))
      as [|Hne]; [done|].
    apply Hch in Hne. rewrite <- HS in Hne.
    by apply (root_not_queried host this root HE) in Hne. }
  split.
  - intros this HD HS. destruct (Main this h HD HS) as (h' & Hrun & Hroot & Hch).
    exists h'. repeat split; try done.
    intros host' HK HDs HM.
    by rewrite (attachTo_ignores_root_match host this root HE HP host' h HK HDs HM).
  - unfold registerDirective.
    pose (m := mkManager (symbols h) (extractAttributesFromSelector sel) D sel).
    pose (h0 := mkHeap (props h) (S (symbols h)) (objects h) (observing h) (trace h)).
    destruct (Main m h0 eq_refl eq_refl) as (h1 & Hrun & Hroot & Hch).
    exists m. eexists. split.
    + apply bind_ok. exists m, h0. split; [reflexivity|].
      apply bind_ok. exists tt, h1. split; [exact Hrun|].
      apply bind_ok. eexists tt, _. split; reflexivity.
    + simpl. done.
Qed.

Lemma C10_non_element_root_witness :
  ∃ m h', registerDirective Page.host 0 Page.sel Page.Quiet empty_heap = (Ok m, h')
          ∧ props h' !! (0, symbol m) = None.
Proof.
  destruct (C10_non_element_root Page.host 0 Page.sel Page.Quiet empty_heap)
    as [_ (m & h' & Hrun & _ & Hroot & _)]; [reflexivity..|].
  exists m, h'. split; [exact Hrun|]. exact (eq_trans Hroot eq_refl).
Defined.

(** ** Runs that return *)

Section Returns.

Context (R : relation Heap) `{!PreOrder R}.

Lemma returns_ret {A} (a : A) : returns R (ret a).
Proof. intros h a' h' [= _ <-]. reflexivity. Qed.

Lemma returns_bind {A B} (c : M A) (f : A → M B) :
  returns R c → (∀ a, returns R (f a)) → returns R (bind c f).
Proof.
  intros Hc Hf h b h2 (a & h1 & H1 & H2)%bind_ok.
  etrans; [eapply Hc | eapply Hf]; eauto.
Qed.

Lemma returns_for_of {A} (l : list A) (body : A → M unit) :
  (∀ x, x ∈ l → returns R (body x)) → returns R (for_of l body).
Proof.
  induction l as [|x t IH]; intros Hb; simpl.
  - apply returns_ret.
  - apply returns_bind; [apply Hb; left | intros _; apply IH].
    intros y Hy. apply Hb. by right.
Qed.

End Returns.

Section Detach.

Variable host : Host.
Variable this : DirectiveManager.

Let k := symbol this.
Let D := directive this.
Let sel := selector this.

Lemma only_detaches_detach el : returns (only_detaches k) (detach this el).
Proof.
  intros h [] h' Hrun.
  destruct (detach_cases this h el)
    as [[_ E]|(d & evs & Hd & Hevs & [E|[_ E]])]; rewrite E in Hrun;
    [injection Hrun as <-; reflexivity | | done].
  injection Hrun as <-. fold k in Hd. split; simpl.
  - intros x d' [_ ?]%lookup_delete_Some. done.
  - exists evs. split; [done|].
    destruct Hevs as [[-> _]|[-> _]].
    + split; [constructor|]. intros e He. by apply elem_of_nil in He.
    + split; [apply NoDup_singleton|].
      intros e ->%list_elem_of_singleton. exists el, d.
      split; [done|]. split; [done|]. apply lookup_delete_eq.
Qed.

Lemma detach_ok el h h' :
  detach this el h = (Ok tt, h') → props h' !! (el, k) = None.
Proof.
  intros Hrun.
  destruct (detach_cases this h el)
    as [[Hn E]|(d & evs & Hd & Hevs & [E|[_ E]])]; rewrite E in Hrun;
    [by injection Hrun as <- | | done].
  injection Hrun as <-. apply lookup_delete_eq.
Qed.

Lemma only_detaches_loop els : returns (only_detaches k) (for_of els (detach this)).
Proof.
  apply returns_for_of; [apply _|]. intros; apply only_detaches_detach.
Qed.

Lemma detach_loop_all els h h1 :
  for_of els (detach this) h = (Ok tt, h1) →
  ∀ el, el ∈ els → props h1 !! (el, k) = None.
Proof.
  revert h; induction els as [|x t IH]; intros h Hrun el Hel.
  - by apply elem_of_nil in Hel.
  - apply for_of_ok_cons in Hrun as (h' & Hx & Ht).
    apply elem_of_cons in Hel as [->|Hel]; [|by eapply IH].
    apply detach_ok in Hx.
    destruct (only_detaches_loop t h' tt h1 Ht) as [G _].
    destruct (props h1 !! (x, k)) as [d|] eqn:E; [|done].
    apply G in E. congruence.
Qed.

Lemma detach_loop_noop els h :
  (∀ el, el ∈ els → props h !! (el, k) = None) →
  for_of els (detach this) h = (Ok tt, h).
Proof.
  induction els as [|x t IH]; intros Hall; [done|].
  apply for_of_ok_cons. exists h. split; [|apply IH; intros; apply Hall; by right].
  apply detach_absent, Hall. by left.
Qed.

(** [detachFrom] returns only on an element: the root is asked whether it
    matches. *)
Lemma detachFrom_ok_element root h h1 :
  detachFrom host this root h = (Ok tt, h1) → instanceof_Element host root = true.
Proof.
  unfold detachFrom. intros (_ & h' & _ & (b & h'' & Hm & _)%bind_ok)%bind_ok.
  unfold call_matches in Hm. by destruct (instanceof_Element host root).
Qed.

Lemma only_detaches_detachFrom root :
  returns (only_detaches k) (detachFrom host this root).
Proof.
  intros h [] h1 Hrun. pose proof (detachFrom_ok_element _ _ _ Hrun) as HE.
  rewrite detachFrom_eq in Hrun by done.
  assert (Hret : returns (only_detaches k)
                   (for_of (matching_descendants host root sel) (detach this) ;;;
                    if matches host root sel then detach this root else ret tt)).
  { apply returns_bind; [apply _|apply only_detaches_loop|].
    intros _. destruct (matches host root sel);
      [apply only_detaches_detach | apply returns_ret, _]. }
  exact (Hret h tt h1 Hrun).
Qed.

Lemma detachFrom_idempotent root h h1 :
  detachFrom host this root h = (Ok tt, h1) →
  detachFrom host this root h1 = (Ok tt, h1).
Proof.
  intros Hrun. pose proof (detachFrom_ok_element _ _ _ Hrun) as HE.
  rewrite detachFrom_eq in * by done.
  apply bind_ok in Hrun as ([] & h' & H1 & H2). cbv beta in H2.
  fold sel in H1, H2 |- *.
  assert (Hroot : matches host root sel = true → props h1 !! (root, k) = None).
  { intros HM. rewrite HM in H2. by apply detach_ok in H2. }
  assert (G : only_detaches k h' h1).
  { destruct (matches host root sel).
    - by apply (only_detaches_detach root h' tt h1).
    - injection H2 as <-. reflexivity. }
  destruct G as [G _].
  apply bind_ok. exists tt, h1. split.
  - apply detach_loop_noop. intros el Hel.
    pose proof (detach_loop_all _ _ _ H1 el Hel) as Hn.
    destruct (props h1 !! (el, k)) as [d|] eqn:E; [|done].
    apply G in E. congruence.
  - destruct (matches host root sel); [|done].
    apply detach_absent. by apply Hroot.
Qed.

(** Calls of [onDetach] that are pairwise distinct and all on instances
    stored at the start hit a node at most once. *)
Lemma onDetach_calls_le_1 h evs n :
  NoDup evs →
  (∀ e, e ∈ evs → ∃ n' d, e = Detached d n' ∧ props h !! (n', k) = Some d) →
  onDetach_calls n evs ≤ 1.
Proof.
  unfold onDetach_calls. induction 1 as [|e t Hnot Hnd IH]; intros Hev; [simpl; lia|].
  rewrite filter_cons. case_decide as Hdec; [|apply IH; intros; apply Hev; by right].
  destruct (Hev e) as (n' & d & -> & Hd); [by left|].
  simpl in Hdec. apply Nat.eqb_eq in Hdec as ->.
  destruct (filter (λ e, is_detach_of n e = true) t) as [|e' t'] eqn:F;
    [simpl; lia|].
  assert (He' : e' ∈ filter (λ e, is_detach_of n e = true) t) by (rewrite F; left).
  apply list_elem_of_filter in He' as [Hdec' Hin].
  destruct (Hev e') as (n' & d' & -> & Hd'); [by right|].
  simpl in Hdec'. apply Nat.eqb_eq in Hdec' as ->.
  assert (d' = d) as -> by congruence. done.
Qed.

End Detach.

(** ** C7: detaching is idempotent *)

(** C7.  Once [detachFrom] has run on a root, running it again invokes no
    [onDetach] and leaves the state as it is; over both passes [onDetach]
    is invoked at most once per node, on the instance the node held; and
    [#detach] on a node that holds no instance does nothing. *)
Theorem C7_detach_idempotent host this root h h1 :
  detachFrom host this root h = (Ok tt, h1) →
  detachFrom host this root h1 = (Ok tt, h1)
  ∧ (∃ evs, trace (detachFrom host this root h1).2 = trace h ++ evs
            ∧ ∀ n, onDetach_calls n evs ≤ 1)
  ∧ (∀ el s, props s !! (el, symbol this) = None → detach this el s = (Ok tt, s)).
Proof.
  intros Hrun. pose proof (detachFrom_idempotent _ _ _ _ _ Hrun) as Hagain.
  split; [exact Hagain|]. split; [|intros; by apply detach_absent].
  rewrite Hagain. simpl.
  destruct (only_detaches_detachFrom host this root h tt h1 Hrun)
    as [_ (evs & T & ND & E)].
  exists evs. split; [done|]. intros n.
  apply (onDetach_calls_le_1 this h evs n ND).
  intros e He. destruct (E e He) as (n' & d & -> & Hd & _). eauto.
Qed.

Lemma C7_detach_idempotent_witness :
  let h := (registerDirective Page.host 0 Page.sel Page.Quiet empty_heap).2 in
  let h1 := (detachFrom Page.host (Page.manager Page.Quiet) 1 h).2 in
  detachFrom Page.host (Page.manager Page.Quiet) 1 h1 = (Ok tt, h1).
Proof.
  intros h h1.
  destruct (C7_detach_idempotent Page.host (Page.manager Page.Quiet) 1 h h1)
    as [H _]; [vm_compute; reflexivity | exact H].
Defined.

(** ** C5: the order of a teardown *)

Lemma for_of_app {A} (l1 l2 : list A) body h :
  for_of (l1 ++ l2) body h = (for_of l1 body ;;; for_of l2 body) h.
Proof.
  revert h; induction l1 as [|x t IH]; intros h; simpl; [done|].
  unfold bind. destruct (body x h) as [[[]|e] h']; [|done].
  rewrite IH. reflexivity.
Qed.

Lemma for_of_singleton {A} (x : A) body h : for_of [x] body h = body x h.
Proof. simpl. unfold bind, ret. by destruct (body x h) as [[[]|e] h']. Qed.

Section Teardown.

Variable host : Host.
Variable this : DirectiveManager.

Let k := symbol this.
Let D := directive this.
Let sel := selector this.

Hypothesis onDetach_returns : ∀ f, onDetach D = Some f → ∀ d el, f d el = Returns.

Lemma detach_exact el h :
  detach this el h =
    (Ok tt, mkHeap (delete (el, k) (props h)) (symbols h) (objects h)
                   (observing h) (trace h ++ detach_calls D k h [el])).
Proof.
  unfold detach_calls; simpl. rewrite app_nil_r.
  destruct (props h !! (el, k)) as [d|] eqn:E.
  - rewrite (detach_present this h el d E). fold D.
    destruct (onDetach D) as [f|] eqn:F; [|by rewrite app_nil_r].
    by rewrite (onDetach_returns f eq_refl).
  - rewrite (detach_absent this h el E), delete_id, app_nil_r by done.
    by destruct h.
Qed.

Lemma detach_calls_frame h h' els :
  (∀ el, el ∈ els → props h' !! (el, k) = props h !! (el, k)) →
  detach_calls D k h' els = detach_calls D k h els.
Proof.
  unfold detach_calls. induction els as [|x t IH]; intros Hf; [done|].
  simpl. rewrite Hf by left. f_equal. apply IH. intros; apply Hf. by right.
Qed.

Lemma detach_loop_exact els h :
  NoDup els →
  for_of els (detach this) h =
    (Ok tt, mkHeap (erase_all k els (props h)) (symbols h) (objects h)
                   (observing h) (trace h ++ detach_calls D k h els)).
Proof.
  intros ND. revert h; induction ND as [|x t Hx ND IH]; intros h.
  - unfold detach_calls; simpl. rewrite app_nil_r. by destruct h.
  - apply for_of_ok_cons. eexists. split; [apply detach_exact|].
    rewrite IH. simpl. rewrite <- app_assoc. do 3 f_equal.
    change (detach_calls D k h (x :: t))
      with (detach_calls D k h [x] ++ detach_calls D k h t).
    f_equal. 
    + unfold detach_calls; simpl. by rewrite app_nil_r.
    + apply detach_calls_frame. intros el Hel. simpl.
      apply lookup_delete_ne. intros [= ->]. done.
Qed.

(** For an element, [detachFrom] is one loop: the matching descendants,
    then the root if it matches. *)
Lemma detachFrom_loop root h :
  instanceof_Element host root = true →
  detachFrom host this root h =
    for_of (matching_descendants host root sel
            ++ if matches host root sel then [root] else [])
           (detach this) h.
Proof.
  intros HE. rewrite (detachFrom_eq host this root h HE), for_of_app. fold sel.
  unfold bind. destruct (for_of _ _ h) as [[[]|e] h']; [|done].
  destruct (matches host root sel); [by rewrite for_of_singleton | done].
Qed.

End Teardown.

(** C5.  [detachFrom] on an element whose descendants are listed once each
    (a tree), with an [onDetach] that returns: the calls of [onDetach] are
    those for the matching descendants that hold an instance, in the order
    of the subtree query, followed by the one for the root when the root
    matches and holds an instance; all these slots are erased.  So each
    descendant's [onDetach] comes before the root's. *)
Theorem C5_teardown_order host this root h :
  instanceof_Element host root = true →
  (∀ f, onDetach (directive this) = Some f → ∀ d el, f d el = Returns) →
  NoDup (descendants host root) →
  root ∉ descendants host root →
  let k := symbol this in
  let D := directive this in
  let els := matching_descendants host root (selector this) in
  let last := if matches host root (selector this) then [root] else [] in
  ∃ h1, detachFrom host this root h = (Ok tt, h1)
    ∧ trace h1 = trace h ++ detach_calls D k h els ++ detach_calls D k h last
    ∧ props h1 = erase_all k (els ++ last) (props h)
    ∧ (∀ n d dr, n ∈ els → props h !! (n, k) = Some d →
         props h !! (root, k) = Some dr →
         matches host root (selector this) = true → is_Some (onDetach D) →
         ∃ e1 e2, trace h1 = trace h ++ e1 ++ Detached d n :: e2 ++ [Detached dr root]).
Proof.
  intros HE HR ND Hroot k D els last.
  assert (NDels : NoDup els) by (by apply NoDup_filter).
  assert (Hnot : root ∉ els).
  { intros [_ ?]%list_elem_of_filter. done. }
  assert (NDall : NoDup (els ++ last)).
  { apply NoDup_app. split; [done|]. subst last. split.
    - intros x Hx. destruct (matches host root (selector this)).
      + intros ->%list_elem_of_singleton. done.
      + apply not_elem_of_nil.
    - destruct (matches host root (selector this));
        [apply NoDup_singleton | constructor]. }
  eexists. split; [|split; [|split]].
  - rewrite (detachFrom_loop host this root h HE).
    apply (detach_loop_exact this HR _ h NDall).
  - simpl. unfold detach_calls. by rewrite flat_map_app.
  - reflexivity.
  - intros n d dr Hn Hd Hdr HM [f Hf]. simpl.
    apply list_elem_of_split in Hn as (l1 & l2 & Hsplit).
    exists (detach_calls D k h l1), (detach_calls D k h l2).
    f_equal. rewrite Hsplit. subst last. rewrite HM.
    unfold detach_calls. rewrite !flat_map_app. simpl.
    subst k D. rewrite Hd, Hdr, Hf. simpl. rewrite <- !app_assoc. reflexivity.
Qed.

Lemma C5_teardown_order_witness :
  let h := (registerDirective Page.host 0 Page.sel Page.Quiet empty_heap).2 in
  ∃ h1, detachFrom Page.host (Page.manager Page.Quiet) 1 h = (Ok tt, h1)
        ∧ trace h1 = trace h ++ [Detached 1 2] ++ [Detached 0 1].
Proof.
  intros h.
  destruct (C5_teardown_order Page.host (Page.manager Page.Quiet) 1 h)
    as (h1 & Hrun & Htrace & _).
  - reflexivity.
  - intros f [= <-]. reflexivity.
  - apply (bool_decide_unpack _). vm_compute. exact I.
  - apply (bool_decide_unpack _). vm_compute. exact I.
  - exists h1. split; [exact Hrun|]. rewrite Htrace. reflexivity.
Defined.

(** ** C3: what [disconnect] leaves behind *)

Global Instance detaches_within_preorder S k : PreOrder (detaches_within S k).
Proof.
  split.
  - intros h. split; [done|]. exists []. rewrite app_nil_r. split; [done|].
    intros e He. by apply elem_of_nil in He.
  - intros h1 h2 h3 [F1 (e1 & T1 & E1)] [F2 (e2 & T2 & E2)]. split.
    + intros n Hn. by rewrite F2, F1.
    + exists (e1 ++ e2). split; [by rewrite T2, T1, app_assoc|].
      intros e [?|?]%elem_of_app; eauto.
Qed.

Lemma detaches_within_detach (S : node → Prop) this el :
  S el → steps (detaches_within S (symbol this)) (detach this el).
Proof.
  intros HS h.
  assert (Hevs : ∀ d evs,
    evs = [] ∧ onDetach (directive this) = None
    ∨ evs = [Detached d el] ∧ is_Some (onDetach (directive this)) →
    ∀ e, e ∈ evs → ∃ d' n, e = Detached d' n ∧ S n).
  { intros d evs [[-> _]|[-> _]] e He.
    - by apply elem_of_nil in He.
    - apply list_elem_of_singleton in He as ->. eauto. }
  destruct (detach_cases this h el) as [[_ ->]|(d & evs & _ & Hev & [->|[_ ->]])].
  - reflexivity.
  - split; simpl; [|by eauto].
    intros n Hn. apply lookup_delete_ne. intros [= ->]. done.
  - split; simpl; [done|by eauto].
Qed.

(** C3.  [disconnect(root)] detaches only what [root.querySelectorAll]
    returns, and that never includes [root]: a root that holds an instance
    of the manager still holds it afterwards, and its [onDetach] has not
    been invoked.  ([attachTo] and [detachFrom] both handle the root.) *)
Theorem C3_disconnect_keeps_root host this root h d :
  is_ParentNode host root = true →
  root ∉ descendants host root →
  props h !! (root, symbol this) = Some d →
  let h1 := (disconnect host this root h).2 in
  props h1 !! (root, symbol this) = Some d
  ∧ ∃ evs, trace h1 = trace h ++ evs ∧ ∀ d', Detached d' root ∉ evs.
Proof.
  intros HP Hroot Hd h1. subst h1.
  set (S := λ n, n ∈ matching_descendants host root (selector this)).
  assert (HS : ¬ S root).
  { intros [_ ?]%list_elem_of_filter. done. }
  assert (Hst : steps (detaches_within S (symbol this)) (disconnect host this root)).
  { intros s. rewrite (disconnect_eq host this root s HP). revert s.
    lift_steps steps_bind.
    - intros s. split; simpl; [done|]. exists []. rewrite app_nil_r.
      split; [done|]. intros e He. by apply elem_of_nil in He.
    - intros _. lift_steps steps_for_of. intros el Hel.
      by apply detaches_within_detach. }
  destruct (Hst h) as [F (evs & T & E)]. split.
  - by rewrite F.
  - exists evs. split; [done|]. intros d' Hin.
    destruct (E _ Hin) as (d'' & n & [= <- <-] & Hn). done.
Qed.

Lemma C3_disconnect_keeps_root_witness :
  let r := registerDirective Page.host 1 Page.sel Page.Quiet empty_heap in
  let h1 := (disconnect Page.host (Page.manager Page.Quiet) 1 r.2).2 in
  r.1 = Ok (Page.manager Page.Quiet)
  ∧ props r.2 !! (1, 0) = Some 0
  ∧ props h1 !! (1, 0) = Some 0
  ∧ trace h1 = [Constructed 1 0; Constructed 2 1; Detached 1 2].
Proof.
  intros r h1. split; [reflexivity|]. split; [reflexivity|]. split.
  - apply (C3_disconnect_keeps_root Page.host (Page.manager Page.Quiet) 1 r.2 0).
    + reflexivity.
    + apply (bool_decide_unpack _). vm_compute. exact I.
    + reflexivity.
  - reflexivity.
Defined.

(** What [disconnect] does achieve: the observer is stopped, and every
    matching element below the root that holds an instance gets [onDetach]
    and loses its slot, in the order of the subtree query. *)
Lemma disconnect_detaches_descendants host this root h :
  is_ParentNode host root = true →
  (∀ f, onDetach (directive this) = Some f → ∀ d el, f d el = Returns) →
  NoDup (descendants host root) →
  let els := matching_descendants host root (selector this) in
  disconnect host this root h =
    (Ok tt, mkHeap (erase_all (symbol this) els (props h)) (symbols h) (objects h)
                   (delete (symbol this) (observing h))
                   (trace h ++ detach_calls (directive this) (symbol this) h els)).
Proof.
  intros HP HR ND els. rewrite (disconnect_eq host this root h HP).
  unfold bind, observer_disconnect.
  rewrite (detach_loop_exact this HR); [done|]. by apply NoDup_filter.
Qed.

(** ** C4: callbacks that throw *)




Section WellBehaved.

Variable host : Host.
Variable this : DirectiveManager.

Let k := symbol this.
Let D := directive this.
Let sel := selector this.

Hypothesis quiet : well_behaved D.









End WellBehaved.





(** ** What the passes leave behind *)

Global Instance keeps_preorder {A} (f : Heap → A) : PreOrder (keeps f).
Proof.
  split; unfold keeps.
  - by intros h.
  - intros h1 h2 h3 H1 H2. by rewrite H2.
Qed.

Global Instance calls_only_preorder P : PreOrder (calls_only P).
Proof.
  split.
  - intros h. exists []. rewrite app_nil_r. split; [done|].
    intros e He. by apply elem_of_nil in He.
  - intros h1 h2 h3 (e1 & T1 & E1) (e2 & T2 & E2). exists (e1 ++ e2).
    split; [by rewrite T2, T1, app_assoc|].
    intros e [?|?]%elem_of_app; eauto.
Qed.

Lemma steps_returns {A} R (c : M A) : steps R c → returns R c.
Proof. intros Hs h a h' Hrun. specialize (Hs h). by rewrite Hrun in Hs. Qed.

(** What each element of a loop establishes, and later iterations keep,
    holds for all elements when the loop returns. *)
Lemma for_of_post {A} (R : relation Heap) `{!PreOrder R} (Q : A → Heap → Prop)
    (l : list A) (body : A → M unit) h h' :
  (∀ x, x ∈ l → returns R (body x)) →
  (∀ x s s', x ∈ l → body x s = (Ok tt, s') → Q x s') →
  (∀ x s s', R s s' → Q x s → Q x s') →
  for_of l body h = (Ok tt, h') →
  ∀ x, x ∈ l → Q x h'.
Proof.
  intros HR HQ Hkeep. revert h; induction l as [|y t IH]; intros h Hrun x Hx.
  - by apply elem_of_nil in Hx.
  - apply for_of_ok_cons in Hrun as (h1 & Hy & Ht).
    apply elem_of_cons in Hx as [->|Hx].
    + apply (Hkeep y h1 h').
      * apply (returns_for_of R t body) with (a := tt) (h := h1); [|done].
        intros z Hz. apply HR. by right.
      * apply (HQ y h h1); [by left|done].
    + apply (IH (λ z Hz, HR z (proj2 (elem_of_cons t z y) (or_intror Hz)))
                (λ z s s' Hz, HQ z s s' (proj2 (elem_of_cons t z y) (or_intror Hz)))
                h1 Ht x Hx).
Qed.

Section PassResults.

Variable host : Host.
Variable this : DirectiveManager.

Let k := symbol this.
Let sel := selector this.

Lemma in_scope_cases root n :
  in_scope host sel root n ↔
  (n = root ∧ instanceof_Element host root && matches host root sel = true)
  ∨ n ∈ matching_descendants host root sel.
Proof.
  unfold in_scope, matching. rewrite andb_true_iff. tauto.
Qed.

Lemma attachTo_where root :
  steps (attaches_where (in_scope host sel root) k) (attachTo host this root).
Proof.
  intros h. rewrite attachTo_eq. revert h. lift_steps steps_bind.
  - destruct (instanceof_Element host root && matches host root (selector this)) eqn:HR;
      [|lift_steps steps_ret].
    lift_steps steps_bind; [|intros; lift_steps steps_ret].
    apply attaches_where_attach. apply in_scope_cases. by left.
  - intros _. destruct (is_ParentNode host root); [|lift_steps steps_throw].
    lift_steps steps_for_of. intros el Hel.
    lift_steps steps_bind; [|intros; lift_steps steps_ret].
    apply attaches_where_attach. apply in_scope_cases. by right.
Qed.

Lemma attachTo_complete root h h1 :
  attachTo host this root h = (Ok tt, h1) →
  ∀ n, in_scope host sel root n → is_Some (props h1 !! (n, k)).
Proof.
  rewrite attachTo_eq. intros ([] & h' & H1 & H2)%bind_ok. cbv beta in H2.
  destruct (is_ParentNode host root); [|done].
  change (λ el, attach this el;;; ret ()) with (attach_body this) in H2.
  intros n [[-> HR]|Hn]%in_scope_cases.
  - fold sel in H1. rewrite HR in H1. apply (attach_body_ok this) in H1 as [d Hd].
    destruct (attach_loop_grows this (matching_descendants host root (selector this)) h')
      as [G _]. rewrite H2 in G. eauto.
  - by apply (attach_loop_all this _ _ _ H2).
Qed.

Lemma detachFrom_complete root h h1 :
  detachFrom host this root h = (Ok tt, h1) →
  ∀ n, in_scope host sel root n → props h1 !! (n, k) = None.
Proof.
  intros Hrun. pose proof (detachFrom_ok_element _ _ _ _ _ Hrun) as HE.
  rewrite detachFrom_eq in Hrun by done.
  apply bind_ok in Hrun as ([] & h' & H1 & H2). cbv beta in H2.
  intros n [[-> HR]|Hn]%in_scope_cases.
  - apply andb_true_iff in HR as [_ HM]. fold sel in H2. rewrite HM in H2.
    by apply (detach_ok this) in H2.
  - pose proof (detach_loop_all this _ _ _ H1 n Hn) as Hnone.
    assert (G : only_detaches k h' h1).
    { destruct (matches host root (selector this)).
      - by apply (only_detaches_detach this root h' tt h1).
      - injection H2 as <-. reflexivity. }
    destruct G as [G _].
    destruct (props h1 !! (n, k)) as [d|] eqn:E; [|done].
    apply G in E. fold k in Hnone. congruence.
Qed.

Lemma detachFrom_within root :
  instanceof_Element host root = true →
  steps (detaches_within (in_scope host sel root) k) (detachFrom host this root).
Proof.
  intros HE h. rewrite detachFrom_eq by done. revert h. lift_steps steps_bind.
  - lift_steps steps_for_of. intros el Hel.
    apply detaches_within_detach. apply in_scope_cases. by right.
  - intros _. destruct (matches host root (selector this)) eqn:HM;
      [|lift_steps steps_ret].
    apply detaches_within_detach. apply in_scope_cases. left.
    split; [done|]. fold sel in HM. by rewrite HE, HM.
Qed.

End PassResults.

(** ** Which calls into user code are made, and which slots can change *)

Section Locality.

Variable this : DirectiveManager.

Let k := symbol this.
Let D := directive this.

Lemma calls_only_attach P el :
  (∀ d, P (Constructed el d)) → steps (calls_only P) (attach this el).
Proof.
  intros HP h. destruct (attach_cases this h el) as [(d & _ & ->)|(_ & o & d1 & n1 & -> & Hlt & Hd1 & Hpl)];
    [reflexivity|].
  exists [Constructed el (objects h)]. split; [done|].
  intros e ->%list_elem_of_singleton. apply HP.
Qed.

Lemma calls_only_detach P el :
  (∀ d, P (Detached d el)) → steps (calls_only P) (detach this el).
Proof.
  intros HP h.
  assert (Hevs : ∀ d evs,
    evs = [] ∧ onDetach D = None ∨ evs = [Detached d el] ∧ is_Some (onDetach D) →
    ∀ e, e ∈ evs → P e).
  { intros d evs [[-> _]|[-> _]] e He.
    - by apply elem_of_nil in He.
    - apply list_elem_of_singleton in He as ->. apply HP. }
  destruct (detach_cases this h el) as [[_ ->]|(d & evs & _ & Hev & [->|[_ ->]])];
    [reflexivity|exists evs; split; [done|by eapply Hevs]..].
Qed.

Lemma calls_only_onChange P d el m :
  P (Changed d el m) → steps (calls_only P) (call_onChange D d el m).
Proof.
  intros HP h. unfold call_onChange. destruct (onChange D) as [f|];
    [|reflexivity].
  exists [Changed d el m]. split.
  - unfold bind, log, user. simpl. by destruct (f d el m).
  - intros e ->%list_elem_of_singleton. done.
Qed.

Lemma keeps_slot_attach x el :
  x ≠ (el, k) → steps (keeps (λ h, props h !! x)) (attach this el).
Proof.
  intros Hx h. destruct (attach_cases this h el) as [(d & _ & ->)|(_ & o & d1 & n1 & -> & Hlt & Hd1 & Hpl)];
    [reflexivity|]. unfold keeps. simpl. destruct o; [|done].
  by apply lookup_insert_ne.
Qed.

Lemma keeps_slot_detach x el :
  x ≠ (el, k) → steps (keeps (λ h, props h !! x)) (detach this el).
Proof.
  intros Hx h.
  destruct (detach_cases this h el) as [[_ ->]|(d & evs & _ & _ & [->|[_ ->]])];
    [reflexivity| |reflexivity].
  unfold keeps. simpl. by apply lookup_delete_ne.
Qed.

Lemma keeps_slot_onChange x d el m :
  steps (keeps (λ h, props h !! x)) (call_onChange D d el m).
Proof.
  intros h. unfold D. by destruct (onChange_cases this h d el m) as (o & evs & ->).
Qed.

Lemma keeps_objects_detach el : steps (keeps objects) (detach this el).
Proof.
  intros h.
  by destruct (detach_cases this h el) as [[_ ->]|(d & evs & _ & _ & [->|[_ ->]])].
Qed.

Lemma keeps_observing_detach el : steps (keeps observing) (detach this el).
Proof.
  intros h.
  by destruct (detach_cases this h el) as [[_ ->]|(d & evs & _ & _ & [->|[_ ->]])].
Qed.

End Locality.

Lemma steps_update_at (R : relation Heap) `{!PreOrder R} this el m :
  steps R (attach this el) →
  (∀ d, steps R (call_onChange (directive this) d el m)) →
  steps R (update this el m).
Proof.
  intros Ha Ho. unfold update. apply steps_bind; [done|exact Ha|].
  intros [|]; [by apply steps_ret|].
  apply steps_bind; [done|by apply steps_get_prop|].
  intros [d|]; [apply Ho | by apply steps_throw].
Qed.

(** ** A childList record *)

Lemma reduce_childList host this m h :
  type m = childList →
  reduce host this m h =
    (for_of (addedNodes m) (λ node,
       if instanceof_Element host node then attachTo host this node else ret tt) ;;;
     for_of (removedNodes m) (λ node,
       if instanceof_Element host node then detachFrom host this node else ret tt)) h.
Proof.
  intros HT. unfold reduce. rewrite HT. unfold bind.
  destruct (for_of (addedNodes m) _ h) as [[[]|e] h1]; [|done].
  by destruct (for_of (removedNodes m) _ h1) as [[[]|e] h2].
Qed.

Lemma observing_disconnect host this root h :
  observing (disconnect host this root h).2 = delete (symbol this) (observing h).
Proof.
  unfold disconnect, bind at 1. cbn [observer_disconnect].
  set (s := mkHeap _ _ _ _ _).
  assert (K : steps (keeps observing)
                (let* els := querySelectorAll host root (selector this) in
                 for_of els (detach this))).
  { lift_steps steps_detach_loop. apply keeps_observing_detach. }
  exact (K s).
Qed.

Lemma keeps_observing_attach this el : steps (keeps observing) (attach this el).
Proof.
  intros h. by destruct (attach_cases this h el) as [(d & _ & ->)|(_ & o & d1 & n1 & -> & Hlt & Hd1 & Hpl)].
Qed.


Lemma symbols_call host this c h : symbols (run_call host this c h).2 = symbols h.
Proof. by destruct (frame_call this host c h) as [-> _]. Qed.

Lemma well_behaved_plain D : well_behaved D → plain D.
Proof. intros [HC _] el d. by rewrite HC. Qed.

(** ** What a record erases *)

(** When the loop over the removed nodes of a record returns, nothing that
    the teardown of a removed element visits holds an instance. *)
Lemma removed_loop_detached host this rs h h1 :
  for_of rs (λ node, if instanceof_Element host node
                     then detachFrom host this node else ret tt) h = (Ok tt, h1) →
  ∀ r n, r ∈ rs → instanceof_Element host r = true →
         in_scope host (selector this) r n →
         props h1 !! (n, symbol this) = None.
Proof.
  intros Hrem r n Hr HE Hn.
  refine (for_of_post (only_detaches (symbol this))
            (λ r s, instanceof_Element host r = true →
                    ∀ n, in_scope host (selector this) r n →
                         props s !! (n, symbol this) = None)
            _ _ h h1 _ _ _ Hrem r Hr HE n Hn).
  - intros x _. destruct (instanceof_Element host x).
    + apply only_detaches_detachFrom.
    + apply returns_ret, _.
  - intros x s s' _ Hx HEx. rewrite HEx in Hx.
    by apply (detachFrom_complete host this x s s').
  - intros x s s' [G _] HQ HEx n' Hn'.
    destruct (props s' !! (n', symbol this)) as [d|] eqn:E; [|done].
    apply G in E. rewrite (HQ HEx n' Hn') in E. done.
Qed.

(** When [update] returns, the element holds an instance. *)
Lemma update_ok this el m h h1 :
  update this el m h = (Ok tt, h1) → is_Some (props h1 !! (el, symbol this)).
Proof.
  destruct (props h !! (el, symbol this)) as [d|] eqn:E.
  - rewrite (update_present this h el m d E).
    destruct (onChange (directive this)) as [f|].
    + intros [= _ <-]. simpl. eauto.
    + intros [= <-]. eauto.
  - rewrite (update_absent this h el m E). intros [= Ho <-].
    rewrite (attach_absent this h el E).
    destruct (construct (directive this) el) as [[|]|d]; simpl; try done;
      rewrite lookup_insert_eq; eauto.
Qed.

(** After an attributes record on an element, the element holds an
    instance exactly when it matches. *)
Lemma reduce_attributes_slot host this m h h1 :
  type m = attributes →
  instanceof_Element host (target m) = true →
  reduce host this m h = (Ok tt, h1) →
  is_Some (props h1 !! (target m, symbol this))
  ↔ matches host (target m) (selector this) = true.
Proof.
  intros HT HE. rewrite (reduce_attributes this host h m HT HE).
  destruct (matches host (target m) (selector this)); intros Hrun.
  - split; [done|]. intros _. by apply (update_ok this _ m h h1).
  - apply (detach_ok this) in Hrun. rewrite Hrun. split; [by intros [? ?]|done].
Qed.

(** When [disconnect] returns, the root could be queried, and nothing in
    the result of the query holds an instance. *)
Lemma disconnect_detached host this root h h1 :
  disconnect host this root h = (Ok tt, h1) →
  is_ParentNode host root = true
  ∧ ∀ n, n ∈ matching_descendants host root (selector this) →
         props h1 !! (n, symbol this) = None.
Proof.
  intros Hrun.
  assert (HP : is_ParentNode host root = true).
  { destruct (is_ParentNode host root) eqn:HP; [done|].
    unfold disconnect, bind, querySelectorAll in Hrun. cbn in Hrun.
    rewrite HP in Hrun. discriminate. }
  split; [done|]. intros n Hn.
  rewrite (disconnect_eq host this root h HP) in Hrun.
  apply bind_ok in Hrun as ([] & h' & _ & Hloop).
  by apply (detach_loop_all this _ _ _ Hloop).
Qed.

(** ** C2: what holds of the stored instances in every reachable state *)

Lemma wf_empty : wf empty_heap.
Proof. split; simpl; intros *; by rewrite lookup_empty. Qed.

Lemma attaches_where_weaken (P Q : node → Prop) k h h' :
  (∀ n, P n → Q n) → attaches_where P k h h' → attaches_where Q k h h'.
Proof. intros HPQ H n d Hd. destruct (H n d Hd); eauto. Qed.

Lemma attaches_where_detach P this el :
  steps (attaches_where P (symbol this)) (detach this el).
Proof.
  intros h.
  destruct (detach_cases this h el) as [[_ ->]|(d & evs & _ & _ & [->|[_ ->]])];
    [reflexivity| |by left].
  intros n d'; simpl. intros [_ ?]%lookup_delete_Some. by left.
Qed.

Lemma attaches_where_onChange P this d el m :
  steps (attaches_where P (symbol this)) (call_onChange (directive this) d el m).
Proof.
  intros h. destruct (onChange_cases this h d el m) as (o & evs & ->). by left.
Qed.

Section Registration.

Variable host : Host.
Variable root : node.
Variable sel : jsstring.
Variable D : DirectiveContructor.

Lemma registerDirective_ok h0 this h :
  registerDirective host root sel D h0 = (Ok this, h) →
  this = mkManager (symbols h0) (extractAttributesFromSelector sel) D sel
  ∧ ∃ h1, attachTo host this root
            (mkHeap (props h0) (S (symbols h0)) (objects h0) (observing h0) (trace h0))
          = (Ok tt, h1)
          ∧ h = (observe this root h1).2.
Proof.
  unfold registerDirective.
  intros (m & h0' & [= <- <-] & ([] & h1 & Hat & Hrest)%bind_ok)%bind_ok.
  apply bind_ok in Hrest as ([] & h2 & Hob & [= <- <-]).
  split; [done|]. exists h1. split; [done|]. by rewrite Hob.
Qed.

(** After [attachTo] on a tree without instances of the manager, the nodes
    that hold one are the nodes the pass visits. *)
Lemma attachTo_domain this h0 h1 :
  selector this = sel →
  (∀ n, props h0 !! (n, symbol this) = None) →
  attachTo host this root h0 = (Ok tt, h1) →
  ∀ n, is_Some (props h1 !! (n, symbol this)) ↔ in_scope host sel root n.
Proof.
  intros Hsel Hfresh Hrun n. split.
  - intros [d Hd].
    pose proof (attachTo_where host this root h0) as W.
    rewrite Hrun, Hsel in W. destruct (W n d Hd) as [Hd0|?]; [|done].
    by rewrite Hfresh in Hd0.
  - rewrite <- Hsel. by apply (attachTo_complete host this root h0 h1).
Qed.

End Registration.

Lemma in_scope_selected host sel root n :
  in_scope host sel root n → selected host sel n.
Proof.
  intros [[-> [HE HM]]|Hn].
  - split; [done|by left].
  - split; [|right; by exists root].
    apply list_elem_of_filter in Hn as [Hn _].
    by apply andb_true_iff in Hn as [HE _].
Qed.

Section Reachable.

Variable root : node.
Variable sel : jsstring.
Variable D : DirectiveContructor.

Lemma attaches_selected_step host this c :
  selector this = sel →
  match c with
  | CallAttachTo _ | CallDisconnect _ | CallBatch _ => True
  | _ => False
  end →
  steps (attaches_where (selected host sel) (symbol this)) (run_call host this c).
Proof.
  intros Hsel Hc.
  assert (Ha : ∀ el, selected host (selector this) el →
                     steps (attaches_where (selected host sel) (symbol this))
                           (attach this el)).
  { intros el Hel. apply attaches_where_attach. by rewrite <- Hsel. }
  pose proof (attaches_where_detach (selected host sel) this) as Hd.
  pose proof (attaches_where_onChange (selected host sel) this) as Ho.
  destruct c; try done; simpl.
  - by lift_steps steps_attachTo.
  - lift_steps steps_disconnect; [done|]. intros h. by left.
  - by lift_steps steps_observer.
Qed.

Lemma stored_ok_step host this hosts h c :
  match c with
  | CallDisconnect _ | CallBatch _ => True
  | _ => False
  end →
  stored_ok sel this hosts h →
  stored_ok sel this (host :: hosts) (run_call host this c h).2.
Proof.
  intros Hc (Hk & Hsel & Hne & Hm & Hwf).
  split; [|split; [done|split; [done|split]]].
  - by rewrite symbols_call.
  - intros n d Hd.
    destruct (attaches_selected_step host this c Hsel) with (h := h) (n := n) (d := d)
      as [Hd'|?]; [by destruct c|done| |].
    + destruct (Hm n d Hd') as (host' & ? & ?). exists host'. split; [by right|done].
    + exists host. split; [by left|done].
  - intros HD. by apply (valid_call this host c HD h (conj Hk (Hwf HD))).
Qed.

Lemma reachable_stored_ok this hosts h :
  reachable root sel D this hosts h → stored_ok sel this hosts h.
Proof.
  induction 1 as [host h0 this h Hwf Hreg|this hosts h host ms _ IH _
                 |this hosts h host _ IH _].
  - apply registerDirective_ok in Hreg as (-> & h1 & Hat & ->).
    set (this := mkManager _ _ _ _) in *.
    set (h0' := mkHeap _ _ _ _ _) in *.
    assert (Hv0 : valid (symbol this) h0').
    { split; [simpl; lia|]. destruct Hwf as [K O I B].
      split; simpl; [|eauto..]. intros n k d Hd. apply K in Hd. lia. }
    assert (Hfresh : ∀ n, props h0' !! (n, symbol this) = None).
    { intros n. simpl. destruct (props h0 !! (n, symbols h0)) as [d|] eqn:E; [|done].
      apply (wf_key _ Hwf) in E. lia. }
    assert (Hk1 : (symbol this < symbols h1)%nat).
    { pose proof (symbols_call host this (CallAttachTo root) h0') as Hs.
      simpl in Hs. rewrite Hat in Hs. simpl in Hs. rewrite Hs. simpl. lia. }
    split; [done|]. split; [done|]. split; [done|]. split.
    + intros n d Hd. simpl in Hd. exists host. split; [by left|].
      apply (in_scope_selected host sel root).
      apply (attachTo_domain host root sel this h0' h1 eq_refl Hfresh Hat n). eauto.
    + intros HD.
      assert (Hv1 : valid (symbol this) h1).
      { pose proof (valid_call this host (CallAttachTo root) HD h0') as Hv.
        simpl in Hv. rewrite Hat in Hv. by apply Hv. }
      by apply (valid_observe this root h1).
  - by apply (stored_ok_step host this hosts h (CallBatch ms)).
  - by apply (stored_ok_step host this hosts h (CallDisconnect root)).
Qed.

Lemma reachable_directive this hosts h :
  reachable root sel D this hosts h → directive this = D.
Proof.
  induction 1 as [host h0 this h _ Hreg| |]; [|done..].
  by apply registerDirective_ok in Hreg as (-> & _).
Qed.

End Reachable.

(** C2, as the code has it.  In every state reached by [registerDirective]
    followed by mutation batches and at most one [disconnect]:
    - when the constructor returns no object of its own, no instance is
      stored in two slots, and every instance stored under the manager's key
      was constructed for the node that holds it;
    - every node that holds an instance of the manager was an element that
      the selector selected in one of the snapshots the manager has run on
      (it matched, or was in the result of a subtree query);
    - right after [registerDirective] (on a store without slots of the new
      key) the nodes holding an instance are exactly the nodes the initial
      pass visits: the root, if it is an element that matches, and the
      result of the subtree query of the root;
    - an instance is erased when a record about its node is processed: when
      the reducer returns on an attributes record on an element, the
      element holds an instance exactly if it matches; when it returns on a
      childList record, nothing that the teardown of a removed element
      visits holds an instance;
    - when [disconnect] returns, nothing in the result of the subtree query
      of the root holds an instance.
    The reducer never asks whether a node is in the tree, and looks at a
    node only when a record names it, so an instance can sit on a node that
    is no longer in the tree or no longer matches. *)
Theorem C2_stored_instances root sel D this hosts h :
  reachable root sel D this hosts h →
  (plain D →
     (∀ x y d, props h !! x = Some d → props h !! y = Some d → x = y)
     ∧ (∀ n d, props h !! (n, symbol this) = Some d → Constructed n d ∈ trace h))
  ∧ (∀ n d, props h !! (n, symbol this) = Some d →
       ∃ host, host ∈ hosts ∧ selected host sel n)
  ∧ (∀ host, hosts = [host] →
       ∀ n, is_Some (props h !! (n, symbol this)) ↔ in_scope host sel root n)
  ∧ (∀ host m h1, reduce host this m h = (Ok tt, h1) →
       (type m = attributes → instanceof_Element host (target m) = true →
          (is_Some (props h1 !! (target m, symbol this))
           ↔ matches host (target m) sel = true))
       ∧ (type m = childList →
          ∀ r n, r ∈ removedNodes m → instanceof_Element host r = true →
                 in_scope host sel r n →
                 props h1 !! (n, symbol this) = None))
  ∧ (∀ host h1, disconnect host this root h = (Ok tt, h1) →
       ∀ n, n ∈ matching_descendants host root sel →
            props h1 !! (n, symbol this) = None).
Proof.
  intros Hreach.
  destruct (reachable_stored_ok root sel D this hosts h Hreach)
    as (_ & Hsel & Hne & Hm & Hwf).
  pose proof (reachable_directive root sel D this hosts h Hreach) as HD.
  split; [|split; [exact Hm|split; [|split]]].
  - intros Hp. rewrite HD in Hwf. specialize (Hwf Hp).
    split; [apply (wf_inj _ Hwf)|].
    intros n d Hd. by apply (wf_born _ Hwf n (symbol this)).
  - intros host ->. clear Hsel Hm Hne Hwf HD.
    inversion Hreach as [host' h0 this' h' Hwf0 Hreg| |]; subst.
    + apply registerDirective_ok in Hreg as (-> & h1 & Hat & ->).
      intros n. simpl.
      refine (attachTo_domain host root sel
                (mkManager (symbols h0) (extractAttributesFromSelector sel) D sel)
                _ h1 eq_refl _ Hat n).
      intros m. simpl. destruct (props h0 !! (m, symbols h0)) as [d|] eqn:E; [|done].
      apply (wf_key _ Hwf0) in E. lia.
    + match goal with H : reachable _ _ _ _ [] _ |- _ =>
        apply reachable_stored_ok in H as (_ & _ & ? & _) end. done.
    + match goal with H : reachable _ _ _ _ [] _ |- _ =>
        apply reachable_stored_ok in H as (_ & _ & ? & _) end. done.
  - intros host m h1 Hrun. rewrite <- Hsel. split.
    + intros HT HE. by apply (reduce_attributes_slot host this m h h1).
    + intros HT r n Hr HE Hn.
      rewrite (reduce_childList host this m h HT) in Hrun.
      apply bind_ok in Hrun as ([] & h' & _ & Hrem).
      by apply (removed_loop_detached host this (removedNodes m) h' h1 Hrem r n).
  - intros host h1 Hrun n Hn. rewrite <- Hsel in Hn.
    by apply (disconnect_detached host this root h h1 Hrun).
Qed.

Lemma C2_reachable_registered :
  reachable 0 Page.sel Page.Quiet (Page.manager Page.Quiet) [Page.host]
            (registerDirective Page.host 0 Page.sel Page.Quiet empty_heap).2.
Proof.
  apply (reach_register _ _ _ Page.host empty_heap); [apply wf_empty|].
  vm_compute. reflexivity.
Qed.

Lemma plain_Quiet : plain Page.Quiet.
Proof. intros el d. discriminate. Qed.

(** On the page: after registration elements 1 and 2 hold distinct
    instances, each constructed for its node; when [open] is taken from
    element 1 and the record is processed, element 1 holds none. *)
Lemma C2_stored_instances_witness :
  let this := Page.manager Page.Quiet in
  let h := (registerDirective Page.host 0 Page.sel Page.Quiet empty_heap).2 in
  let h1 := (reduce Page.host_toggled this (Page.attr_changed 1) h).2 in
  is_Some (props h !! (2, 0))
  ∧ Constructed 2 1 ∈ trace h
  ∧ props h1 !! (1, 0) = None
  ∧ props (disconnect Page.host this 0 h).2 !! (2, 0) = None.
Proof.
  intros this h h1.
  destruct (C2_stored_instances 0 Page.sel Page.Quiet this
              [Page.host] h C2_reachable_registered)
    as (Hp & _ & Hreg & Hrec & Hdis).
  destruct (Hp plain_Quiet) as [_ Hborn].
  assert (Hq : 2 ∈ matching_descendants Page.host 0 Page.sel).
  { apply (bool_decide_unpack _). vm_compute. exact I. }
  split; [|split; [|split]].
  - apply (Hreg Page.host eq_refl 2). by right.
  - apply Hborn. vm_compute. reflexivity.
  - destruct (Hrec Page.host_toggled (Page.attr_changed 1) h1) as [Hattr _].
    { vm_compute. reflexivity. }
    destruct (props h1 !! (1, 0)) as [d|] eqn:E; [|done].
    assert (Hs : is_Some (props h1 !! (1, 0))) by (by exists d).
    apply (Hattr eq_refl eq_refl) in Hs. discriminate Hs.
  - apply (Hdis Page.host (disconnect Page.host this 0 h).2); [|exact Hq].
    vm_compute. reflexivity.
Defined.

(** Against C2 as the specification states it, three reachable states.

    Out of the tree: the page is registered on the document; a script takes
    element 2 out of the tree and then sets [open] on it again; the
    observer still reports both changes in the next batch (it follows
    removed nodes until the batch is delivered).  The reducer detaches the
    old instance for the removal, and for the attribute record constructs a
    new one: it is stored on element 2, which is not in the observed tree.

    In the tree and not matching: with the selector [[open] b], element 2
    matches as long as element 1 carries [open].  When a script removes
    [open] from element 1, the record names element 1, which holds nothing;
    element 2 no longer matches and keeps its instance, without [onDetach].

    On two nodes: a constructor that returns one shared object leaves that
    object on elements 1 and 2. *)
Lemma C2_counterexample :
  let this := Page.manager Page.Quiet in
  let h0 := (registerDirective Page.host 0 Page.sel Page.Quiet empty_heap).2 in
  let h1 := (observer Page.host_removed this
               [Page.removed 1 2; Page.attr_changed 2] h0).2 in
  let nested := Page.manager_nested Page.Quiet in
  let h2 := (registerDirective Page.host_nested 0 Page.sel_nested Page.Quiet
               empty_heap).2 in
  let h3 := (observer Page.host_nested_closed nested [Page.attr_changed 1] h2).2 in
  let shared := Page.manager Page.Shared in
  let h4 := (registerDirective Page.host 0 Page.sel Page.Shared empty_heap).2 in
  (reachable 0 Page.sel Page.Quiet this [Page.host_removed; Page.host] h1
   ∧ props h1 !! (2, symbol this) = Some 2
   ∧ trace h1 = [Constructed 1 0; Constructed 2 1; Detached 1 2; Constructed 2 2]
   ∧ ¬ in_tree Page.host_removed 0 2)
  ∧ (reachable 0 Page.sel_nested Page.Quiet nested
       [Page.host_nested_closed; Page.host_nested] h3
     ∧ props h3 !! (2, symbol nested) = Some 0
     ∧ trace h3 = [Constructed 2 0]
     ∧ in_tree Page.host_nested_closed 0 2
     ∧ matches Page.host_nested_closed 2 Page.sel_nested = false)
  ∧ (reachable 0 Page.sel Page.Shared shared [Page.host] h4
     ∧ props h4 !! (1, symbol shared) = Some 0
     ∧ props h4 !! (2, symbol shared) = Some 0).
Proof.
  intros this h0 h1 nested h2 h3 shared h4. split; [|split].
  - split; [|split; [reflexivity|split; [reflexivity|]]].
    + apply reach_batch; [apply C2_reachable_registered|].
      eexists. vm_compute. reflexivity.
    + intros [?|Hin]; [done|]. revert Hin.
      apply (bool_decide_unpack _). vm_compute. exact I.
  - split; [|split; [reflexivity|split; [reflexivity|split; [|reflexivity]]]].
    + apply reach_batch.
      * apply (reach_register _ _ _ Page.host_nested empty_heap); [apply wf_empty|].
        vm_compute. reflexivity.
      * eexists. vm_compute. reflexivity.
    + right. apply (bool_decide_unpack _). vm_compute. exact I.
  - split; [|split; reflexivity].
    apply (reach_register _ _ _ Page.host empty_heap); [apply wf_empty|].
    vm_compute. reflexivity.
Qed.

(** ** C8: the attribute extractor *)

Lemma exec_loop_step s attrs :
  exec_loop s attrs =
    match Pattern.exec s with
    | Some (g, rest) => exec_loop rest (set_add attrs g)
    | None => attrs
    end.
Proof. funelim (exec_loop s attrs); rewrite e; reflexivity. Qed.

Section Characters.

Import Pattern.

Lemma space_not_open c : is_space c = true → is_open c = false.
Proof.
  unfold is_open. destruct (N.eqb_spec c 91) as [->|]; [|done].
  vm_compute. done.
Qed.

Lemma name_char_not_open c : is_name_char c = true → is_open c = false.
Proof.
  unfold is_open. destruct (N.eqb_spec c 91) as [->|]; [|done].
  vm_compute. done.
Qed.

Lemma name_start_name_char c : is_name_start c = true → is_name_char c = true.
Proof. unfold is_name_start, is_name_char. rewrite !orb_true_iff. tauto. Qed.

Lemma name_start_not_space c : is_name_start c = true → is_space c = false.
Proof.
  unfold is_name_start, is_alpha, is_space.
  rewrite !orb_true_iff, !andb_true_iff, !N.leb_le, !N.eqb_eq. intros H.
  apply not_true_iff_false.
  rewrite !orb_true_iff, !andb_true_iff, !N.leb_le, !N.eqb_eq. lia.
Qed.

Lemma skip_spaces_spec s :
  ∃ ws, s = ws ++ skip_spaces s ∧ Forall (λ c, is_space c = true) ws
        ∧ match skip_spaces s with
          | c :: _ => is_space c = false
          | [] => True
          end.
Proof.
  induction s as [|c t (ws & E & F & Hd)]; [by exists []|].
  simpl. destruct (is_space c) eqn:Hc.
  - exists (c :: ws). split; [simpl; by rewrite <- E|]. split; [by constructor|done].
  - exists []. done.
Qed.

Lemma skip_spaces_app ws v :
  Forall (λ c, is_space c = true) ws →
  match v with c :: _ => is_space c = false | [] => True end →
  skip_spaces (ws ++ v) = v.
Proof.
  induction 1 as [|c ws Hc _ IH]; intros Hv; simpl.
  - destruct v as [|c t]; [done|]. simpl. by rewrite Hv.
  - rewrite Hc. by apply IH.
Qed.

Lemma span_name_spec s nm rest :
  span_name s = (nm, rest) →
  s = nm ++ rest ∧ Forall (λ c, is_name_char c = true) nm
  ∧ match rest with c :: _ => is_name_char c = false | [] => True end.
Proof.
  revert nm rest; induction s as [|c t IH]; intros nm rest; simpl.
  - intros [= <- <-]. done.
  - destruct (is_name_char c) eqn:Hc.
    + destruct (span_name t) as [nm' rest'] eqn:E. intros [= <- <-].
      destruct (IH _ _ eq_refl) as (-> & F & Hd). split; [done|].
      split; [by constructor|done].
    + intros [= <- <-]. done.
Qed.

Lemma span_name_app nm rest :
  Forall (λ c, is_name_char c = true) nm →
  match rest with c :: _ => is_name_char c = false | [] => True end →
  span_name (nm ++ rest) = (nm, rest).
Proof.
  induction 1 as [|c nm Hc _ IH]; intros Hr; simpl.
  - destruct rest as [|c t]; [done|]. simpl. by rewrite Hr.
  - by rewrite Hc, IH.
Qed.

(** The pattern matches at the head of [u] exactly when [u] starts with a
    bracket, white space and a name that ends before [rest]. *)
Lemma match_at_spec u x rest :
  match_at u = Some (x, rest) ↔
  ∃ ws, u = 91%N :: ws ++ x ++ rest
        ∧ Forall (λ c, is_space c = true) ws
        ∧ is_name x
        ∧ match rest with c :: _ => is_name_char c = false | [] => True end.
Proof.
  split.
  - destruct u as [|c t]; simpl; [done|].
    unfold is_open. destruct (N.eqb_spec c 91) as [->|]; [|done].
    destruct (skip_spaces_spec t) as (ws & E & F & _).
    destruct (skip_spaces t) as [|d v]; [done|].
    destruct (is_name_start d) eqn:Hd; [|done].
    destruct (span_name v) as [nm r] eqn:Sp. intros [= <- <-].
    apply span_name_spec in Sp as (-> & Fn & Hr).
    exists ws. split; [by rewrite E|]. split; [done|]. split; [|done].
    exists d, nm. done.
  - intros (ws & -> & F & (d & nm & -> & Hd & Fn) & Hr). simpl.
    rewrite skip_spaces_app; [|done|simpl; by apply name_start_not_space].
    by rewrite Hd, span_name_app.
Qed.


Lemma token_at_match_at s i x :
  token_at s i x ↔ ∃ rest, match_at (drop i s) = Some (x, rest).
Proof.
  split.
  - intros (pre & ws & post & -> & <- & F & Hx & Hp). exists post.
    rewrite drop_app_length. apply match_at_spec. by exists ws.
  - intros (rest & (ws & E & F & Hx & Hp)%match_at_spec).
    exists (take i s), ws, rest. split; [|split; [|done]].
    + rewrite <- (take_drop i s) at 1. by rewrite E.
    + apply length_take_le.
      destruct (decide (i ≤ length s)); [done|].
      rewrite drop_ge in E by lia. done.
Qed.

End Characters.

Section Tokens.

Import Pattern.

Lemma tokens_from_elem off s p x :
  (p, x) ∈ tokens_from off s ↔ ∃ j, p = (off + j)%nat ∧ token_at s j x.
Proof.
  setoid_rewrite token_at_match_at.
  revert off; induction s as [|c t IH]; intros off.
  - simpl. split; [by intros ?%elem_of_nil|].
    intros (j & _ & rest & H). by rewrite drop_nil in H.
  - assert (Htail : (p, x) ∈ tokens_from (S off) t ↔
                    ∃ j, p = (off + S j)%nat
                         ∧ ∃ rest, match_at (drop (S j) (c :: t)) = Some (x, rest)).
    { rewrite IH. split; intros (j & -> & H); exists j; (split; [lia|done]). }
    cbn [tokens_from].
    destruct (match_at (c :: t)) as [[y r]|] eqn:E.
    + rewrite elem_of_cons, Htail. split.
      * intros [[= -> ->]|(j & -> & H)]; [|by exists (S j)].
        exists 0%nat. split; [lia|]. by exists r.
      * intros ([|j] & -> & rest & H).
        -- left. rewrite drop_0, E in H. injection H as -> _.
           f_equal. lia.
        -- right. exists j. split; [done|]. by exists rest.
    + rewrite Htail. split.
      * intros (j & -> & H). by exists (S j).
      * intros ([|j] & -> & rest & H).
        -- rewrite drop_0, E in H. done.
        -- exists j. split; [done|]. by exists rest.
Qed.



(** No match starts inside a run of characters other than the bracket. *)
Lemma tokens_from_skip off l r :
  Forall (λ c, is_open c = false) l →
  tokens_from off (l ++ r) = tokens_from (off + length l) r.
Proof.
  intros F. revert off; induction F as [|c l Hc _ IH]; intros off; simpl.
  - f_equal. lia.
  - rewrite Hc, IH. f_equal. lia.
Qed.

(** After a match, scanning resumes behind it and misses nothing. *)
Lemma tokens_from_match off c t x rest :
  match_at (c :: t) = Some (x, rest) →
  length rest ≤ length t ∧
  tokens_from off t = tokens_from (off + (length t - length rest)) rest.
Proof.
  intros (ws & [= -> ->] & F & (d & nm & -> & Hd & Fn) & _)%match_at_spec.
  rewrite !length_app. split; [lia|].
  rewrite (app_assoc ws), tokens_from_skip.
  - f_equal. rewrite length_app. simpl. lia.
  - apply Forall_app. split.
    + eapply Forall_impl; [exact F|]. apply space_not_open.
    + constructor.
      * by apply name_char_not_open, name_start_name_char.
      * eapply Forall_impl; [exact Fn|]. apply name_char_not_open.
Qed.

(** [exec] finds the first token and leaves the text behind it. *)
Lemma exec_tokens off s :
  match exec s with
  | Some (g, rest) =>
      length rest < length s ∧
      ∃ p, tokens_from off s
           = (p, g) :: tokens_from (off + (length s - length rest)) rest
  | None => tokens_from off s = []
  end.
Proof.
  revert off; induction s as [|c t IH]; intros off; [done|].
  cbn [exec tokens_from].
  destruct (match_at (c :: t)) as [[g rest]|] eqn:E.
  - destruct (tokens_from_match (S off) c t g rest E) as [Hl ->].
    simpl. split; [lia|]. exists off. do 2 f_equal. lia.
  - specialize (IH (S off)). destruct (exec t) as [[g rest]|]; [|done].
    destruct IH as [Hl (p & ->)]. simpl. split; [lia|].
    exists p. do 2 f_equal. lia.
Qed.

(** The loop adds the captures of all tokens, in the order of the text. *)
Lemma exec_loop_tokens n : ∀ s off attrs,
  length s ≤ n →
  exec_loop s attrs = foldl set_add attrs (tokens_from off s).*2.
Proof.
  induction n as [|n IH]; intros s off attrs Hn; rewrite exec_loop_step;
    pose proof (exec_tokens off s) as H;
    destruct (exec s) as [[g rest]|]; try (by rewrite H).
  - destruct H as [Hl _]. lia.
  - destruct H as [Hl (p & ->)]. simpl. apply IH. lia.
Qed.

Lemma extract_tokens s :
  extractAttributesFromSelector s = foldl set_add [] (tokens_from 0 s).*2.
Proof. by apply (exec_loop_tokens (length s)). Qed.

End Tokens.

(** *** The insertion-ordered set *)

Section SetAdd.



Lemma set_add_elem attrs x y : y ∈ set_add attrs x ↔ y ∈ attrs ∨ y = x.
Proof.
  unfold set_add. case_decide as Hx.
  - split; [by left|]. intros [?| ->]; done.
  - rewrite elem_of_app, list_elem_of_singleton. done.
Qed.


Lemma foldl_set_add_snoc attrs ms x :
  foldl set_add attrs (ms ++ [x]) = set_add (foldl set_add attrs ms) x.
Proof. by rewrite foldl_app. Qed.

Lemma foldl_set_add_elem ms y : y ∈ foldl set_add [] ms ↔ y ∈ ms.
Proof.
  induction ms as [|x ms IH] using rev_ind; [done|].
  rewrite foldl_set_add_snoc, set_add_elem, IH, elem_of_app,
    list_elem_of_singleton. done.
Qed.



End SetAdd.

(** *** The code against the specification's reading *)

Section Refines.

Import Pattern SpecSide.

Local Arguments match_at : simpl never.














End Refines.




(** The specification's reading on its own examples, on a predicate with
    an operator, a quoted value and a flag, and on names with a namespace
    prefix. *)
Example spec_side_examples :
  SpecSide.attribute_names (js "[data-id][role=btn] > span") = [js "data-id"; js "role"]
  ∧ SpecSide.attribute_names (js "div.card") = []
  ∧ SpecSide.attribute_names (js "a[ href ^= 'x' i ][lang|=en][href]")
    = [js "href"; js "lang"]
  ∧ SpecSide.attribute_names (js "[svg|href][*|title][|lang]")
    = [js "href"; js "title"; js "lang"].
Proof. repeat split; vm_compute; reflexivity. Qed.


(** * Further properties of the manager *)

(** ** The reducer on the node lists of a record *)

Lemma for_of_filter {A} (p : A → bool) (l : list A) (f : A → M unit) h :
  for_of l (λ x, if p x then f x else ret tt) h
  = for_of (filter (λ x, p x = true) l) f h.
Proof.
  revert h; induction l as [|x t IH]; intros h; [done|].
  rewrite filter_cons. destruct (p x) eqn:Hp.
  - rewrite decide_True by done. simpl. rewrite Hp. unfold bind.
    destruct (f x h) as [[[]|e] h']; [apply IH|done].
  - rewrite decide_False by (by intros ?). simpl. rewrite Hp. apply IH.
Qed.

Lemma filter_filter_same {A} (P : A → Prop) `{!∀ x, Decision (P x)} (l : list A) :
  filter P (filter P l) = filter P l.
Proof.
  induction l as [|x t IH]; [done|]. rewrite filter_cons.
  case_decide; [|done]. rewrite filter_cons, decide_True by done. by rewrite IH.
Qed.

(** X2.  Nodes of a childList record that are not elements (text nodes,
    comments) have no effect: the reducer does on the record what it does
    on the record with those nodes taken out of [addedNodes] and
    [removedNodes]. *)
Theorem reduce_ignores_non_elements host this m h :
  type m = childList →
  reduce host this m h = reduce host this (elements_only host m) h.
Proof.
  intros HT. unfold reduce, elements_only.
  cbn [type target addedNodes removedNodes]. rewrite HT. unfold bind.
  rewrite !(for_of_filter (instanceof_Element host)), filter_filter_same.
  destruct (for_of _ _ h) as [[[]|e] h1]; [|done].
  rewrite !(for_of_filter (instanceof_Element host)), filter_filter_same.
  reflexivity.
Qed.

Lemma reduce_ignores_non_elements_witness :
  reduce Page.host (Page.manager Page.Quiet)
         (mkMutation childList 0 [4; 3] [4] None) empty_heap
  = reduce Page.host (Page.manager Page.Quiet)
           (mkMutation childList 0 [3] [] None) empty_heap.
Proof.
  apply (reduce_ignores_non_elements Page.host (Page.manager Page.Quiet)
           (mkMutation childList 0 [4; 3] [4] None) empty_heap).
  reflexivity.
Defined.

(** X12.  Records are processed one after the other: when the reducer
    returns on a batch, a second batch run after it gives what the two
    give as one batch. *)
Theorem observer_split host this a b h h1 :
  observer host this a h = (Ok tt, h1) →
  observer host this (a ++ b) h = observer host this b h1.
Proof.
  unfold observer. intros Ha. rewrite for_of_app. unfold bind. by rewrite Ha.
Qed.

Lemma observer_split_witness :
  let this := Page.manager Page.Quiet in
  let h := (registerDirective Page.host 0 Page.sel Page.Quiet empty_heap).2 in
  observer Page.host_toggled this ([Page.attr_changed 1] ++ [Page.attr_changed 3]) h
  = observer Page.host_toggled this [Page.attr_changed 3]
      (observer Page.host_toggled this [Page.attr_changed 1] h).2.
Proof.
  intros this h.
  apply (observer_split Page.host_toggled this [Page.attr_changed 1]
           [Page.attr_changed 3] h).
  vm_compute. reflexivity.
Defined.

(** ** Attach and detach on one node *)

(** X5.  On a node without instance, [#attach] followed by [#detach]
    restores the slots: [getDir] answers the new instance in between and
    nothing afterwards, and the calls made are the constructor and, when the
    class has it, [onDetach] on that instance. *)
Theorem attach_detach_round_trip this el h :
  props h !! (el, symbol this) = None →
  construct (directive this) el = Returns →
  (∀ f, onDetach (directive this) = Some f → ∀ d n, f d n = Returns) →
  let h1 := (attach this el h).2 in
  let h2 := (detach this el h1).2 in
  attach this el h = (Ok true, h1)
  ∧ getDir this el h1 = (Ok (Some (objects h)), h1)
  ∧ detach this el h1 = (Ok tt, h2)
  ∧ getDir this el h2 = (Ok None, h2)
  ∧ props h2 = props h
  ∧ trace h2 = trace h ++ Constructed el (objects h)
                 :: match onDetach (directive this) with
                    | Some _ => [Detached (objects h) el]
                    | None => []
                    end.
Proof.
  intros Hn Hc Hd h1 h2. subst h1 h2.
  rewrite (attach_absent this h el Hn), Hc. cbn [snd].
  rewrite (detach_exact this Hd). cbn [snd props trace].
  unfold getDir, get_prop. cbn [props].
  rewrite lookup_insert_eq, lookup_delete_eq, delete_insert_id by done.
  repeat split. rewrite <- app_assoc. f_equal. unfold detach_calls. cbn.
  rewrite lookup_insert_eq. by destruct (onDetach (directive this)).
Qed.

Lemma attach_detach_round_trip_witness :
  props (detach (Page.manager Page.Quiet) 3
           (attach (Page.manager Page.Quiet) 3 empty_heap).2).2 = props empty_heap.
Proof.
  apply (attach_detach_round_trip (Page.manager Page.Quiet) 3 empty_heap).
  - reflexivity.
  - reflexivity.
  - intros f [= <-]. reflexivity.
Defined.

(** X6.  What a node gets when it is detached and attached again is what
    [new] yields.  The old instance [d] is an object in use and sits in no
    other slot.  With a constructor that returns no object of its own, the
    constructor is called again and the node gets a new instance, which is
    not [d], and [d] is in no slot any more.  With a constructor that
    returns [d], the node gets [d] back. *)
Theorem reattach_is_new this el d h :
  props h !! (el, symbol this) = Some d →
  (d < objects h)%nat →
  (∀ x, props h !! x = Some d → x = (el, symbol this)) →
  (∀ f, onDetach (directive this) = Some f → ∀ d n, f d n = Returns) →
  let h2 := (attach this el (detach this el h).2).2 in
  Constructed el (objects h) ∈ trace h2
  ∧ (construct (directive this) el = Returns →
     props h2 !! (el, symbol this) = Some (objects h)
     ∧ objects h ≠ d
     ∧ ∀ x, props h2 !! x ≠ Some d)
  ∧ (construct (directive this) el = ReturnsObject d →
     props h2 !! (el, symbol this) = Some d).
Proof.
  intros Hd Hlt Huniq Hr h2. subst h2.
  rewrite (detach_exact this Hr). cbn [snd].
  rewrite attach_absent by apply lookup_delete_eq.
  split; [|split].
  - destruct (construct (directive this) el) as [[|]|d']; cbn;
      apply elem_of_app; right; by left.
  - intros ->. cbn. split; [apply lookup_insert_eq|]. split; [lia|].
    intros x Hx. apply lookup_insert_Some in Hx as [[_ ?]|[Hne Hx]]; [lia|].
    apply lookup_delete_Some in Hx as [Hne' Hx].
    by apply Huniq in Hx.
  - intros ->. cbn. apply lookup_insert_eq.
Qed.

(** On the page after registration, element 1 gets the new instance 2 in
    place of 0; with the constructor that hands out object 0, it gets
    object 0 back. *)
Lemma reattach_is_new_witness :
  let this := Page.manager Page.Quiet in
  let h := (registerDirective Page.host 0 Page.sel Page.Quiet empty_heap).2 in
  let shared := Page.manager Page.Shared in
  let s := (attach shared 1 (mkHeap ∅ 1 0 ∅ [])).2 in
  props (attach this 1 (detach this 1 h).2).2 !! (1, 0) = Some 2
  ∧ props s !! (1, 0) = Some 0
  ∧ props (attach shared 1 (detach shared 1 s).2).2 !! (1, 0) = Some 0.
Proof.
  intros this h shared s. split; [|split; [reflexivity|]].
  - destruct (reattach_is_new this 1 0 h) as (_ & H & _).
    + reflexivity.
    + vm_compute. lia.
    + intros x Hx.
      destruct (reachable_stored_ok _ _ _ _ _ _ C2_reachable_registered)
        as (_ & _ & _ & _ & Hwf).
      exact (wf_inj h (Hwf plain_Quiet) x (1, 0) 0 Hx eq_refl).
    + intros f [= <-]. reflexivity.
    + destruct (H eq_refl) as [E _]. exact E.
  - destruct (reattach_is_new shared 1 0 s) as (_ & _ & H).
    + reflexivity.
    + vm_compute. lia.
    + intros x Hx.
      assert (E : props s = {[ (1, 0) := 0 ]}) by (vm_compute; reflexivity).
      rewrite E in Hx. by apply lookup_singleton_Some in Hx as [<- _].
    + intros f [= <-]. reflexivity.
    + exact (H eq_refl).
Defined.

(** ** What the passes leave behind *)

(** X7.  When [attachTo] returns, everything the pass visits holds an
    instance: the root, if it is an element that matches the selector, and
    every element in the result of the subtree query of the root, whether
    it matches on its own or not; every slot that was filled keeps its
    instance; and the slots of all other nodes, and all slots of other
    managers, are as before. *)
Theorem attachTo_result host this root h h1 :
  attachTo host this root h = (Ok tt, h1) →
  (∀ n, in_scope host (selector this) root n → is_Some (props h1 !! (n, symbol this)))
  ∧ (∀ x d, props h !! x = Some d → props h1 !! x = Some d)
  ∧ (∀ n, ¬ in_scope host (selector this) root n →
          props h1 !! (n, symbol this) = props h !! (n, symbol this))
  ∧ (∀ n k', k' ≠ symbol this → props h1 !! (n, k') = props h !! (n, k')).
Proof.
  intros Hrun.
  destruct (only_attaches_attachTo host this root h) as [G _].
  pose proof (attachTo_where host this root h) as W.
  destruct (frame_call this host (CallAttachTo root) h) as [_ F].
  simpl in F. rewrite Hrun in G, W, F. cbn [snd] in *.
  split; [by apply (attachTo_complete host this root h h1)|].
  split; [done|]. split; [|done].
  intros n Hn. destruct (props h1 !! (n, symbol this)) as [d|] eqn:E.
  - destruct (W n d E) as [Hd|?]; [symmetry; exact Hd|done].
  - destruct (props h !! (n, symbol this)) as [d|] eqn:E'; [|done].
    apply G in E'. congruence.
Qed.

(** X8.  When [detachFrom] returns, nothing the pass visits holds an
    instance any more: not the root, if it matches the selector, and no
    element in the result of the subtree query of the root; the slots of
    all other nodes are as before, so an instance on a node of the removed
    subtree that the query does not return at that moment stays where it
    is; and [onDetach] was called only for nodes the pass visits. *)
Theorem detachFrom_result host this root h h1 :
  detachFrom host this root h = (Ok tt, h1) →
  (∀ n, in_scope host (selector this) root n → props h1 !! (n, symbol this) = None)
  ∧ (∀ n, ¬ in_scope host (selector this) root n →
          props h1 !! (n, symbol this) = props h !! (n, symbol this))
  ∧ (∀ n k', k' ≠ symbol this → props h1 !! (n, k') = props h !! (n, k'))
  ∧ ∃ evs, trace h1 = trace h ++ evs
           ∧ ∀ e, e ∈ evs → ∃ d n, e = Detached d n
                                   ∧ in_scope host (selector this) root n.
Proof.
  intros Hrun. pose proof (detachFrom_ok_element _ _ _ _ _ Hrun) as HE.
  destruct (detachFrom_within host this root HE h) as [W Hev].
  destruct (frame_call this host (CallDetachFrom root) h) as [_ F].
  simpl in F. rewrite Hrun in W, Hev, F. cbn [snd] in *.
  split; [by apply (detachFrom_complete host this root h h1)|]. done.
Qed.

(** With the selector [:scope > [open]], [attachTo] on element 1 attaches
    element 2, which the query from element 1 returns and which does not
    match on its own. *)
Lemma attachTo_result_witness :
  let this := Page.manager_scoped Page.Quiet in
  let h := mkHeap ∅ 1 0 ∅ [] in
  is_Some (props (attachTo Page.host_scoped this 1 h).2 !! (2, 0))
  ∧ matches Page.host_scoped 2 Page.sel_scoped = false
  ∧ props (attachTo Page.host_scoped this 1 h).2 !! (1, 0) = None.
Proof.
  intros this h.
  destruct (attachTo_result Page.host_scoped this 1 h
              (attachTo Page.host_scoped this 1 h).2)
    as (Hin & _ & Hout & _); [vm_compute; reflexivity|].
  split; [|split; [reflexivity|]].
  - apply Hin. right. apply (bool_decide_unpack _). vm_compute. exact I.
  - rewrite Hout; [reflexivity|].
    intros [[_ [_ HM]]|Hq]; [discriminate HM|]. revert Hq.
    apply (bool_decide_unpack _). vm_compute. exact I.
Defined.

(** On the page after element 1 lost [open]: the teardown of element 1
    erases the instance of element 2 and leaves the one of element 1. *)
Lemma detachFrom_result_witness :
  let this := Page.manager Page.Quiet in
  let h := (registerDirective Page.host 0 Page.sel Page.Quiet empty_heap).2 in
  props (detachFrom Page.host_toggled this 1 h).2 !! (1, 0) = Some 0
  ∧ props (detachFrom Page.host_toggled this 1 h).2 !! (2, 0) = None.
Proof.
  intros this h.
  destruct (detachFrom_result Page.host_toggled this 1 h
              (detachFrom Page.host_toggled this 1 h).2)
    as (Hin & Hout & _); [vm_compute; reflexivity|].
  split.
  - rewrite Hout; [reflexivity|].
    intros [[_ [_ HM]]|Hq]; [discriminate HM|]. revert Hq.
    apply (bool_decide_unpack _). vm_compute. exact I.
  - apply Hin. right. apply (bool_decide_unpack _). vm_compute. exact I.
Defined.

(** ** Which calls a pass makes, and which slots it can change *)

(** X14.  [attachTo] calls into user code only through the constructor;
    [detachFrom] and [disconnect] call only [onDetach] and allocate no
    instance; a childList record never leads to an [onChange] call.  This
    holds whatever the outcome of the pass. *)
Theorem passes_call_kinds host this root h :
  calls_only is_Constructed h (attachTo host this root h).2
  ∧ calls_only is_Detached h (detachFrom host this root h).2
  ∧ objects (detachFrom host this root h).2 = objects h
  ∧ calls_only is_Detached h (disconnect host this root h).2
  ∧ objects (disconnect host this root h).2 = objects h
  ∧ (∀ m, type m = childList →
          calls_only (λ e, ¬ is_Changed e) h (reduce host this m h).2).
Proof.
  split; [|split; [|split; [|split; [|split]]]].
  - revert h. lift_steps steps_attachTo. intros. apply calls_only_attach. by intros d.
  - revert h. lift_steps steps_detachFrom. intros. apply calls_only_detach. by intros d.
  - revert h. lift_steps (steps_detachFrom (keeps objects)).
    apply keeps_objects_detach.
  - revert h. lift_steps steps_disconnect.
    + intros. apply calls_only_detach. by intros d.
    + intros h. exists []. split; [by rewrite app_nil_r|].
      intros e He. by apply elem_of_nil in He.
  - revert h. lift_steps (steps_disconnect (keeps objects)); [|done].
    apply keeps_objects_detach.
  - intros m HT. unfold reduce. rewrite HT. revert h.
    lift_steps steps_bind; [|intros; lift_steps steps_ret].
    lift_steps steps_bind; [|intros _]; lift_steps steps_for_of; intros n _;
      destruct (instanceof_Element host n); try (lift_steps steps_ret).
    + lift_steps steps_attachTo. intros. apply calls_only_attach. by intros d [].
    + lift_steps steps_detachFrom. intros. apply calls_only_detach. by intros d [].
Qed.

Lemma passes_call_kinds_witness :
  let h := (registerDirective Page.host 0 Page.sel Page.Quiet empty_heap).2 in
  calls_only (λ e, ¬ is_Changed e) h
    (reduce Page.host (Page.manager Page.Quiet) (Page.removed 0 1) h).2.
Proof.
  intros h.
  destruct (passes_call_kinds Page.host (Page.manager Page.Quiet) 0 h)
    as (_ & _ & _ & _ & _ & H).
  apply H. reflexivity.
Defined.

(** X15.  An attributes record concerns its target only: the slot of every
    other node is left as it was, and every call into user code made for
    the record is about the target (its constructor, its [onChange] or its
    [onDetach]).  This holds whatever the outcome. *)
Theorem attributes_record_is_local host this m h :
  type m = attributes →
  (∀ n, n ≠ target m →
     props (reduce host this m h).2 !! (n, symbol this) = props h !! (n, symbol this))
  ∧ calls_only (λ e, event_node e = target m) h (reduce host this m h).2.
Proof.
  intros HT.
  destruct (instanceof_Element host (target m)) eqn:HE.
  2:{ unfold reduce. rewrite HT, HE. simpl. split; [done|].
      exists []. split; [by rewrite app_nil_r|].
      intros e He. by apply elem_of_nil in He. }
  rewrite (reduce_attributes this host h m HT HE). split.
  - intros n Hn.
    assert (Hx : (n, symbol this) ≠ (target m, symbol this)) by congruence.
    destruct (matches host (target m) (selector this)).
    + revert h. lift_steps (steps_update_at (keeps (λ h, props h !! (n, symbol this)))).
      * by apply keeps_slot_attach.
      * intros. apply keeps_slot_onChange.
    + by apply keeps_slot_detach.
  - destruct (matches host (target m) (selector this)).
    + revert h. lift_steps steps_update_at.
      * by apply calls_only_attach.
      * intros. by apply calls_only_onChange.
    + by apply calls_only_detach.
Qed.

Lemma attributes_record_is_local_witness :
  let this := Page.manager Page.Quiet in
  let h := (registerDirective Page.host 0 Page.sel Page.Quiet empty_heap).2 in
  props (reduce Page.host_toggled this (Page.attr_changed 1) h).2 !! (2, 0)
  = props h !! (2, 0).
Proof.
  intros this h.
  by apply (attributes_record_is_local Page.host_toggled this (Page.attr_changed 1) h).
Defined.

(** ** A childList record *)

(** X3.  Removal has the last word in a record: when the reducer returns
    on a childList record, nothing that the teardown of a removed element
    visits holds an instance (the element itself, if it matches, and the
    result of its subtree query), also when the record lists the element as
    added too. *)
Theorem removed_nodes_are_detached host this m h h1 :
  type m = childList →
  reduce host this m h = (Ok tt, h1) →
  ∀ r n, r ∈ removedNodes m → instanceof_Element host r = true →
         in_scope host (selector this) r n →
         props h1 !! (n, symbol this) = None.
Proof.
  intros HT Hrun. rewrite (reduce_childList host this m h HT) in Hrun.
  apply bind_ok in Hrun as ([] & h' & _ & Hrem). cbv beta in Hrem.
  by apply (removed_loop_detached host this (removedNodes m) h' h1).
Qed.

Lemma removed_nodes_are_detached_witness :
  let this := Page.manager Page.Quiet in
  let h := (registerDirective Page.host 0 Page.sel Page.Quiet empty_heap).2 in
  props (reduce Page.host this (mkMutation childList 0 [1] [1] None) h).2 !! (2, 0)
  = None.
Proof.
  intros this h.
  apply (removed_nodes_are_detached Page.host this
           (mkMutation childList 0 [1] [1] None) h
           (reduce Page.host this (mkMutation childList 0 [1] [1] None) h).2
           eq_refl) with (r := 1).
  - vm_compute. reflexivity.
  - by left.
  - reflexivity.
  - right. apply (bool_decide_unpack _). vm_compute. exact I.
Defined.

(** X4.  When the reducer returns on a childList record, everything that
    the attach pass on an added element visits holds an instance (the
    element itself, if it matches, and the result of its subtree query),
    unless the teardown of a removed element of the record visits it
    too. *)
Theorem added_nodes_are_attached host this m h h1 :
  type m = childList →
  reduce host this m h = (Ok tt, h1) →
  ∀ a n, a ∈ addedNodes m → instanceof_Element host a = true →
         in_scope host (selector this) a n →
         (∀ r, r ∈ removedNodes m → instanceof_Element host r = true →
               ¬ in_scope host (selector this) r n) →
         is_Some (props h1 !! (n, symbol this)).
Proof.
  intros HT Hrun. rewrite (reduce_childList host this m h HT) in Hrun.
  apply bind_ok in Hrun as ([] & h' & Hadd & Hrem). cbv beta in Hrem.
  intros a n Ha HE Hn Hfree.
  assert (Hmid : is_Some (props h' !! (n, symbol this))).
  { refine (for_of_post (only_attaches (symbol this))
              (λ a s, instanceof_Element host a = true →
                      ∀ n, in_scope host (selector this) a n →
                           is_Some (props s !! (n, symbol this)))
              _ _ h h' _ _ _ Hadd a Ha HE n Hn).
    - intros x _. apply steps_returns. destruct (instanceof_Element host x).
      + apply only_attaches_attachTo.
      + lift_steps steps_ret.
    - intros x s s' _ Hx HEx. rewrite HEx in Hx.
      by apply (attachTo_complete host this x s s').
    - intros x s s' [G _] HQ HEx n' Hn'.
      destruct (HQ HEx n' Hn') as [d Hd]. apply G in Hd. eauto. }
  assert (Hkeep : keeps (λ s, props s !! (n, symbol this)) h' h1).
  { refine (returns_for_of (keeps (λ s, props s !! (n, symbol this)))
              (removedNodes m) _ _ h' tt h1 Hrem).
    intros r Hr s [] s' Hs. destruct (instanceof_Element host r) eqn:HEr.
    - destruct (detachFrom_within host this r HEr s) as [Hout _].
      rewrite Hs in Hout. apply Hout. by apply Hfree.
    - by injection Hs as <-. }
  unfold keeps in Hkeep. by rewrite Hkeep.
Qed.

Lemma added_nodes_are_attached_witness :
  let this := Page.manager Page.Quiet in
  let h := (registerDirective Page.host_removed 0 Page.sel Page.Quiet empty_heap).2 in
  is_Some (props (reduce Page.host this (Page.added 1 2) h).2 !! (2, 0)).
Proof.
  intros this h.
  apply (added_nodes_are_attached Page.host this (Page.added 1 2) h
           (reduce Page.host this (Page.added 1 2) h).2 eq_refl) with (a := 2).
  - vm_compute. reflexivity.
  - by left.
  - reflexivity.
  - left. split; [done|]. split; reflexivity.
  - intros r Hr. by apply elem_of_nil in Hr.
Defined.

(** ** [disconnect] *)

(** X9.  [disconnect] returns only on a root that can be queried; when it
    does, the manager observes nothing, no element in the result of the
    subtree query of the root holds an instance of this manager, and no
    instance was created. *)
Theorem disconnect_result host this root h h1 :
  disconnect host this root h = (Ok tt, h1) →
  is_ParentNode host root = true
  ∧ observing h1 !! symbol this = None
  ∧ (∀ n, n ∈ matching_descendants host root (selector this) →
          props h1 !! (n, symbol this) = None)
  ∧ objects h1 = objects h.
Proof.
  intros Hrun.
  destruct (disconnect_detached host this root h h1 Hrun) as [HP Hnone].
  split; [done|]. split; [|split; [done|]].
  - pose proof (observing_disconnect host this root h) as Ho.
    rewrite Hrun in Ho. cbn [snd] in Ho. rewrite Ho. apply lookup_delete_eq.
  - assert (K : steps (keeps objects) (disconnect host this root)).
    { lift_steps steps_disconnect; [|done]. apply keeps_objects_detach. }
    specialize (K h). by rewrite Hrun in K.
Qed.

Lemma disconnect_result_witness :
  let this := Page.manager Page.Quiet in
  let h := (registerDirective Page.host 0 Page.sel Page.Quiet empty_heap).2 in
  props (disconnect Page.host this 0 h).2 !! (2, 0) = None
  ∧ observing (disconnect Page.host this 0 h).2 !! 0%nat = None.
Proof.
  intros this h.
  destruct (disconnect_result Page.host this 0 h (disconnect Page.host this 0 h).2)
    as (_ & Ho & H & _).
  - vm_compute. reflexivity.
  - split; [|exact Ho].
    apply H. apply (bool_decide_unpack _). vm_compute. exact I.
Defined.

(** X10.  [disconnect] stops the manager's observer on every root it was
    started on, whatever root is passed, and leaves the observers of other
    managers alone; the teardown that follows reaches only what the subtree
    query on the passed root returns: the slot of every other node,
    for instance one under another observed root, is as before.  This holds
    whatever the outcome. *)
Theorem disconnect_scope host this root h :
  let h1 := (disconnect host this root h).2 in
  observing h1 = delete (symbol this) (observing h)
  ∧ (∀ n, n ∉ matching_descendants host root (selector this) →
          props h1 !! (n, symbol this) = props h !! (n, symbol this))
  ∧ (∀ n k', k' ≠ symbol this → props h1 !! (n, k') = props h !! (n, k')).
Proof.
  intros h1. subst h1. split; [|split].
  - apply observing_disconnect.
  - intros n Hn. destruct (is_ParentNode host root) eqn:HP.
    + rewrite (disconnect_eq host this root h HP). unfold bind at 1.
      cbn [observer_disconnect].
      set (s := mkHeap _ _ _ _ _).
      change (props h !! (n, symbol this)) with (props s !! (n, symbol this)).
      assert (K : steps (keeps (λ h, props h !! (n, symbol this)))
                    (for_of (matching_descendants host root (selector this))
                            (detach this))).
      { lift_steps steps_for_of. intros el Hel.
        apply keeps_slot_detach. intros [= ->]. done. }
      exact (K s).
    + unfold disconnect, bind, querySelectorAll. rewrite HP. reflexivity.
  - intros n k' Hk. by destruct (frame_call this host (CallDisconnect root) h) as [_ ->].
Qed.

(** ** A constructor that throws *)

(** X11.  When the constructor throws, nothing is stored: [#attach] ends
    with the exception and all slots as they were, so a later [#attach] on
    the node calls the constructor again, for a new instance; and
    [attachTo] on a matching element whose constructor throws stops there,
    without attaching any descendant. *)
Theorem constructor_fault host this el h :
  props h !! (el, symbol this) = None →
  construct (directive this) el = Throws →
  let h1 := (attach this el h).2 in
  let h2 := (attach this el h1).2 in
  (attach this el h).1 = Raised UserError
  ∧ props h1 = props h
  ∧ trace h1 = trace h ++ [Constructed el (objects h)]
  ∧ (attach this el h1).1 = Raised UserError
  ∧ trace h2 = trace h1 ++ [Constructed el (S (objects h))]
  ∧ (instanceof_Element host el = true →
     matches host el (selector this) = true →
     attachTo host this el h = (Raised UserError, h1)).
Proof.
  intros Hn Hc h1 h2. subst h1 h2.
  rewrite (attach_absent this h el Hn), Hc. cbn [fst snd].
  rewrite (attach_absent this
             (mkHeap (props h) (symbols h) (S (objects h)) (observing h)
                     (trace h ++ [Constructed el (objects h)])) el Hn), Hc.
  cbn [fst snd props trace objects].
  repeat split.
  intros HE HM. rewrite attachTo_eq, HE, HM. cbn [andb]. unfold bind.
  by rewrite (attach_absent this h el Hn), Hc.
Qed.

Lemma constructor_fault_witness :
  props (attach (mkManager 0 [] (mkDirective [] (λ _, Throws) None None) Page.sel)
           1 empty_heap).2 = props empty_heap.
Proof.
  apply (constructor_fault Page.host
           (mkManager 0 [] (mkDirective [] (λ _, Throws) None None) Page.sel)
           1 empty_heap); reflexivity.
Defined.

(** ** Stores shared by several managers *)

Global Instance keeps_bounded_preorder k : PreOrder (keeps_bounded k).
Proof.
  split; unfold keeps_bounded.
  - intros h Hb. exact Hb.
  - intros h1 h2 h3 H1 H2 Hb. apply H2, H1, Hb.
Qed.

Lemma bounded_attach this el : steps (keeps_bounded (symbol this)) (attach this el).
Proof.
  intros h [Hk [K O]].
  destruct (attach_cases this h el)
    as [(d & _ & ->)|(Hn & o & d1 & n1 & -> & Hlt & Hd1 & _)]; [done|].
  split; [done|]. split; simpl.
  - intros n k' d Hd. destruct o; [|eauto].
    apply lookup_insert_Some in Hd as [[[= <- <-] _]|[_ Hd]]; eauto.
  - intros x d Hd. destruct o.
    + apply lookup_insert_Some in Hd as [[_ <-]|[_ Hd]]; [done|].
      apply O in Hd. lia.
    + apply O in Hd. lia.
Qed.

Lemma bounded_detach this el : steps (keeps_bounded (symbol this)) (detach this el).
Proof.
  intros h [Hk [K O]].
  destruct (detach_cases this h el) as [[_ ->]|(d & evs & _ & _ & [->|[_ ->]])];
    [done| |by split].
  split; [done|]. split; simpl.
  - intros n k' d' [_ Hd]%lookup_delete_Some. eauto.
  - intros x d' [_ Hd]%lookup_delete_Some. eauto.
Qed.

Lemma bounded_onChange this d el m :
  steps (keeps_bounded (symbol this)) (call_onChange (directive this) d el m).
Proof.
  intros h Hb. by destruct (onChange_cases this h d el m) as (o & evs & ->).
Qed.

Lemma bounded_call this host c :
  steps (keeps_bounded (symbol this)) (run_call host this c).
Proof.
  pose proof (bounded_attach this). pose proof (bounded_detach this).
  pose proof (bounded_onChange this).
  destruct c; simpl.
  - lift_steps steps_bind; [auto|]. intros. lift_steps steps_ret.
  - auto.
  - lift_steps steps_update; auto.
  - lift_steps steps_attachTo; auto.
  - lift_steps steps_detachFrom; auto.
  - by intros h Hb.
  - lift_steps steps_disconnect; auto. by intros h Hb.
  - lift_steps steps_observer; auto.
Qed.

(** X13.  Whatever calls are made, in any order, on any managers whose keys
    have been minted, against any trees and with any classes: no call
    mints a symbol, and the keys and objects in use stay below the
    counters, so the next symbol and the next object are new.  When no
    constructor returns an object of its own, a well-formed store stays
    well formed: no instance is ever in two slots, of the same or of
    different managers, and every stored instance was constructed for the
    node that holds it. *)
Theorem script_keeps_wf cs : ∀ h,
  (∀ host this c, (host, this, c) ∈ cs → symbol this < symbols h) →
  symbols (run_script cs h) = symbols h
  ∧ (bounded h → bounded (run_script cs h))
  ∧ (wf h →
     (∀ host this c, (host, this, c) ∈ cs → plain (directive this)) →
     wf (run_script cs h)).
Proof.
  induction cs as [|[[host this] c] t IH]; intros h Hk; [done|].
  cbn [run_script].
  assert (Hkc : symbol this < symbols h) by (apply (Hk host this c); by left).
  destruct (IH (run_call host this c h).2) as (Hs & Hb & Hw).
  { intros host' this' c' Hin. rewrite symbols_call.
    apply (Hk host' this' c'). by right. }
  split; [by rewrite Hs, symbols_call|]. split.
  - intros Hbh. apply Hb. by apply (bounded_call this host c h).
  - intros Hwf Hp. apply Hw.
    + apply (valid_call this host c (Hp host this c ltac:(by left)) h). by split.
    + intros host' this' c' Hin. apply (Hp host' this' c'). by right.
Qed.

(** Two managers on the page, the second with a class whose [onDetach]
    throws. *)
Lemma script_keeps_wf_witness :
  wf (run_script [(Page.host, Page.manager Page.Quiet, CallAttachTo 0);
                  (Page.host, Page.manager2 Page.Faulty, CallAttachTo 0);
                  (Page.host_toggled, Page.manager2 Page.Faulty,
                   CallBatch [Page.attr_changed 1])]
                 (mkHeap ∅ 2 0 ∅ [])).
Proof.
  destruct (script_keeps_wf
              [(Page.host, Page.manager Page.Quiet, CallAttachTo 0);
               (Page.host, Page.manager2 Page.Faulty, CallAttachTo 0);
               (Page.host_toggled, Page.manager2 Page.Faulty,
                CallBatch [Page.attr_changed 1])]
              (mkHeap ∅ 2 0 ∅ [])) as (_ & _ & H).
  - intros host this c Hin. repeat (apply elem_of_cons in Hin as [[= -> -> ->]|Hin]);
      [simpl; lia..|]. by apply elem_of_nil in Hin.
  - apply H.
    + split; simpl; intros *; by rewrite lookup_empty.
    + intros host this c Hin.
      repeat (apply elem_of_cons in Hin as [[= -> -> ->]|Hin]);
        [by intros el d..|]. by apply elem_of_nil in Hin.
Defined.

(** ** The life cycle of instances *)

Global Instance keeps_balanced_preorder k : PreOrder (keeps_balanced k).
Proof.
  split; unfold keeps_balanced.
  - intros h Hb. exact Hb.
  - intros h1 h2 h3 H1 H2 Hb. apply H2, H1, Hb.
Qed.

Lemma detach_count_snoc d evs e :
  detach_count d (evs ++ [e])
  = detach_count d evs + (if decide (detached_instance e = Some d) then 1 else 0).
Proof.
  unfold detach_count. rewrite filter_app, length_app, filter_cons.
  by case_decide.
Qed.

Lemma detach_count_0 d evs :
  (∀ e, e ∈ evs → detached_instance e ≠ Some d) → detach_count d evs = 0.
Proof.
  unfold detach_count. induction evs as [|e t IH]; intros H; [done|].
  rewrite filter_cons, decide_False by (apply H; by left).
  apply IH. intros e' He'. apply H. by right.
Qed.

Lemma balanced_empty n : balanced (mkHeap ∅ n 0 ∅ []).
Proof.
  split; simpl.
  - split; simpl; intros *; by rewrite lookup_empty.
  - intros * H. by apply elem_of_nil in H.
  - intros * H. by apply elem_of_nil in H.
  - intros * H. by apply elem_of_nil in H.
Qed.

(** Logging a call that is no [onDetach] and no constructor call keeps the
    balance. *)
Lemma balanced_log h e :
  detached_instance e = None → ¬ is_Constructed e →
  balanced h →
  balanced (mkHeap (props h) (symbols h) (objects h) (observing h) (trace h ++ [e])).
Proof.
  intros He Hc [W C Dt L]. split; simpl.
  - destruct W as [K O I B]. split; simpl; eauto.
    intros n k d Hd. apply elem_of_app. left. eauto.
  - intros n d [?|Heq%list_elem_of_singleton]%elem_of_app; [eauto|].
    subst e. by destruct Hc.
  - intros e' d [?| ->%list_elem_of_singleton]%elem_of_app; [eauto|]. congruence.
  - intros n d [Hin|Heq%list_elem_of_singleton]%elem_of_app;
      [|subst e; by destruct Hc].
    rewrite detach_count_snoc, He, decide_False, Nat.add_0_r by done. by apply L.
Qed.

Section LifeCycle.

Variable this : DirectiveManager.

Let k := symbol this.
Let D := directive this.

Hypothesis is_tidy : tidy D.

Lemma balanced_attach el : steps (keeps_balanced k) (attach this el).
Proof.
  intros h [Hk Hb].
  destruct (valid_attach this el (well_behaved_plain D (proj1 is_tidy)) h
              (conj Hk (bal_wf h Hb))) as [Hk' Hw'].
  split; [done|]. revert Hw'.
  destruct (props h !! (el, k)) as [d|] eqn:E.
  { by rewrite (attach_present this h el d E). }
  rewrite (attach_absent this h el E). fold D.
  destruct is_tidy as [[-> _] _]. cbn [snd]. intros Hw'.
  destruct Hb as [W C Dt L]. split; cbn [props trace objects].
  - exact Hw'.
  - intros n d [Hin|[= -> ->]%list_elem_of_singleton]%elem_of_app; [|lia].
    apply C in Hin. lia.
  - intros e d [Hin| ->%list_elem_of_singleton]%elem_of_app; [|done].
    intros He. apply (Dt e d Hin) in He. lia.
  - intros n d Hin. rewrite detach_count_snoc, decide_False, Nat.add_0_r by done.
    apply elem_of_app in Hin as [Hin|[= -> ->]%list_elem_of_singleton].
    + pose proof (C n d Hin) as Hlt.
      destruct (L n d Hin) as [[[k' Hs] Hc]|[Hs Hc]]; [left|right]; (split; [|done]).
      * exists k'. rewrite lookup_insert_ne; [done|]. intros [= -> <-].
        unfold k in *. congruence.
      * intros x [[_ ?]|[_ ?]]%lookup_insert_Some; [lia|]. by apply (Hs x).
    + left. split; [exists k; apply lookup_insert_eq|].
      apply detach_count_0. intros e He Hd. apply (Dt e _ He) in Hd. lia.
Qed.

Lemma balanced_detach el : steps (keeps_balanced k) (detach this el).
Proof.
  intros h [Hk Hb]. destruct (valid_detach this el h (conj Hk (bal_wf h Hb))) as [Hk' Hw'].
  split; [done|]. revert Hw'.
  destruct (props h !! (el, k)) as [d|] eqn:E.
  2:{ by rewrite (detach_absent this h el E). }
  destruct is_tidy as [(_ & _ & HR) [f Hf]].
  rewrite (detach_present this h el d E). fold D. rewrite Hf, (HR f Hf).
  cbn [snd]. intros Hw'.
  destruct Hb as [W C Dt L]. split; cbn [props trace objects].
  - exact Hw'.
  - intros n d' [Hin|[=]%list_elem_of_singleton]%elem_of_app. eauto.
  - intros e d' [Hin| ->%list_elem_of_singleton]%elem_of_app; [eauto|].
    intros [= <-]. by apply (wf_obj h W _ _ E).
  - intros n d' [Hin|[=]%list_elem_of_singleton]%elem_of_app.
    rewrite detach_count_snoc. cbn [detached_instance].
    destruct (decide (d' = d)) as [->|Hne].
    + rewrite decide_True by done. right.
      destruct (L n d Hin) as [[_ Hc]|[Hs _]]; [|by destruct (Hs (el, k))].
      split; [|lia].
      intros x [Hne Hx]%lookup_delete_Some.
      apply Hne. exact (wf_inj h W _ _ _ E Hx).
    + rewrite decide_False, Nat.add_0_r by congruence.
      destruct (L n d' Hin) as [[[k' Hs] Hc]|[Hs Hc]]; [left|right]; (split; [|done]).
      * exists k'. rewrite lookup_delete_ne; [done|]. intros [= -> <-].
        unfold k in *. congruence.
      * intros x [_ ?]%lookup_delete_Some. by apply (Hs x).
Qed.

Lemma balanced_onChange d el m : steps (keeps_balanced k) (call_onChange D d el m).
Proof.
  intros h [Hk Hb]. unfold call_onChange.
  destruct (onChange D) as [f|] eqn:F; [|done].
  destruct is_tidy as [(_ & HO & _) _].
  unfold bind, log, user. cbn. rewrite (HO f F). cbn. split; [done|].
  apply balanced_log; [done| |done]. by intros [].
Qed.

Lemma balanced_observing h o :
  balanced h → balanced (mkHeap (props h) (symbols h) (objects h) o (trace h)).
Proof. intros [[K O I B] C Dt L]. split; [split|..]; simpl; eauto. Qed.

Lemma balanced_call host c : steps (keeps_balanced k) (run_call host this c).
Proof.
  pose proof balanced_attach. pose proof balanced_detach.
  pose proof balanced_onChange.
  assert (steps (keeps_balanced k) (observer_disconnect this)).
  { intros h [Hk Hb]. split; [done|]. by apply balanced_observing. }
  destruct c; simpl.
  - lift_steps steps_bind; [auto|]. intros. lift_steps steps_ret.
  - auto.
  - lift_steps steps_update; auto.
  - lift_steps steps_attachTo; auto.
  - lift_steps steps_detachFrom; auto.
  - intros h [Hk Hb]. split; [done|]. by apply balanced_observing.
  - lift_steps steps_disconnect; auto.
  - lift_steps steps_observer; auto.
Qed.

End LifeCycle.

(** X16.  With classes that implement [onDetach], never throw, and whose
    constructor returns no object of its own, whatever calls are made on
    whatever managers, the life cycle stays balanced: every instance the
    constructor was called for is either still stored on the node it was
    constructed for and has had no [onDetach] call, or is stored nowhere
    and has had exactly one.  No instance is dropped without [onDetach],
    and none gets it twice. *)
Theorem script_keeps_balanced cs : ∀ h,
  balanced h →
  (∀ host this c, (host, this, c) ∈ cs →
     symbol this < symbols h ∧ tidy (directive this)) →
  balanced (run_script cs h)
  ∧ ∀ n d, Constructed n d ∈ trace (run_script cs h) →
      ((∃ k, props (run_script cs h) !! (n, k) = Some d)
       ∧ detach_count d (trace (run_script cs h)) = 0)
      ∨ ((∀ x, props (run_script cs h) !! x ≠ Some d)
         ∧ detach_count d (trace (run_script cs h)) = 1).
Proof.
  assert (Main : ∀ h, balanced h →
    (∀ host this c, (host, this, c) ∈ cs →
       symbol this < symbols h ∧ tidy (directive this)) →
    balanced (run_script cs h)).
  { induction cs as [|[[host this] c] t IH]; intros h Hb Hk; [done|].
    cbn [run_script].
    destruct (Hk host this c) as [Hlt Ht]; [by left|].
    destruct (balanced_call this Ht host c h (conj Hlt Hb)) as [_ Hb'].
    apply (IH _ Hb'). intros host' this' c' Hin. rewrite symbols_call.
    apply (Hk host' this' c'). by right. }
  intros h Hb Hk. pose proof (Main h Hb Hk) as Hfin.
  split; [done|]. apply (bal_life _ Hfin).
Qed.

Lemma tidy_Quiet : tidy Page.Quiet.
Proof.
  split; [|by eexists]. split; [done|]. split.
  - by intros f [= <-].
  - by intros f [= <-].
Qed.

Lemma script_keeps_balanced_witness :
  balanced (run_script [(Page.host, Page.manager Page.Quiet, CallAttachTo 0);
                        (Page.host_toggled, Page.manager Page.Quiet,
                         CallBatch [Page.attr_changed 1; Page.attr_changed 3]);
                        (Page.host_toggled, Page.manager Page.Quiet, CallDisconnect 0)]
                       (mkHeap ∅ 1 0 ∅ [])).
Proof.
  apply script_keeps_balanced.
  - apply balanced_empty.
  - intros host this c Hin.
    repeat (apply elem_of_cons in Hin as [[= -> -> ->]|Hin]);
      [(split; [simpl; lia|apply tidy_Quiet])..|].
    by apply elem_of_nil in Hin.
Defined.

(** Without the condition on the constructor the balance is lost: with the
    class that hands out object 0, registration stores it on elements 1 and
    2; when element 1 loses [open], the object gets its [onDetach] call and
    is still stored on element 2. *)
Example shared_object_unbalanced :
  let this := Page.manager Page.Shared in
  let h := (registerDirective Page.host 0 Page.sel Page.Shared empty_heap).2 in
  let h1 := (observer Page.host_toggled this [Page.attr_changed 1] h).2 in
  trace h1 = [Constructed 1 0; Constructed 2 1; Detached 0 1]
  ∧ detach_count 0 (trace h1) = 1%nat
  ∧ props h1 !! (1, 0) = None
  ∧ props h1 !! (2, 0) = Some 0.
Proof. repeat split; vm_compute; reflexivity. Qed.

(** ** Registration and the observer's filter *)

Lemma extract_elem s x :
  x ∈ extractAttributesFromSelector s ↔ ∃ i, token_at s i x.
Proof.
  rewrite extract_tokens, foldl_set_add_elem, list_elem_of_fmap. split.
  - intros ([p x'] & -> & (j & _ & H)%tokens_from_elem). by exists j.
  - intros (j & H). exists (j, x). split; [done|].
    apply tokens_from_elem. by exists j.
Qed.

(** X1.  [registerDirective] returns a manager with a key no manager had
    before, and leaves its observer started on the root.  The observer's
    attribute filter is the watch-list extracted from the selector; when
    the selector has no bracketed name the filter is absent, so that every
    attribute change is reported.  Observers of other managers are not
    touched. *)
Theorem registerDirective_result host root sel D h m h1 :
  registerDirective host root sel D h = (Ok m, h1) →
  let filt := match extractAttributesFromSelector sel with
              | [] => None
              | l => Some l
              end in
  m = mkManager (symbols h) (extractAttributesFromSelector sel) D sel
  ∧ symbols h1 = S (symbols h)
  ∧ (∃ others, observing h1 !! symbols h = Some (others ++ [(root, filt)])
               ∧ ∀ r, r ∈ others → r.1 ≠ root)
  ∧ (∀ k', k' ≠ symbols h → observing h1 !! k' = observing h !! k')
  ∧ (filt = None ↔ ∀ i x, ¬ token_at sel i x)
  ∧ (∀ l x, filt = Some l → (x ∈ l ↔ ∃ i, token_at sel i x)).
Proof.
  intros Hreg filt.
  apply registerDirective_ok in Hreg as (-> & h' & Hat & ->).
  set (this := mkManager _ _ _ _) in *. set (h0 := mkHeap _ _ _ _ _) in *.
  assert (Hobs : observing h' = observing h).
  { assert (K : steps (keeps observing) (attachTo host this root)).
    { lift_steps steps_attachTo. intros. apply keeps_observing_attach. }
    specialize (K h0). by rewrite Hat in K. }
  assert (Hsym : symbols h' = S (symbols h)).
  { pose proof (symbols_call host this (CallAttachTo root) h0) as Hs.
    simpl in Hs. by rewrite Hat in Hs. }
  split; [done|]. split; [done|]. split; [|split; [|split]].
  - eexists. cbn. rewrite lookup_insert_eq. split; [reflexivity|].
    intros r [Hr _]%list_elem_of_filter. exact Hr.
  - intros k' Hk. cbn. rewrite lookup_insert_ne by done. by rewrite Hobs.
  - subst filt. split.
    + intros Hf i x Htok.
      assert (Hx : x ∈ extractAttributesFromSelector sel) by (apply extract_elem; eauto).
      destruct (extractAttributesFromSelector sel); [|done]. by apply elem_of_nil in Hx.
    + intros Hno. destruct (extractAttributesFromSelector sel) as [|x l] eqn:E; [done|].
      assert (Hx : x ∈ extractAttributesFromSelector sel) by (rewrite E; by left).
      apply extract_elem in Hx as [i Hi]. by destruct (Hno i x).
  - intros l x Hl. rewrite <- extract_elem. subst filt.
    destruct (extractAttributesFromSelector sel); [done|]. by injection Hl as <-.
Qed.

Lemma registerDirective_result_witness :
  let h1 := (registerDirective Page.host 0 (js "button.copy") Page.Quiet empty_heap).2 in
  symbols h1 = 1%nat ∧ observing h1 !! 0%nat = Some [(0%nat, None)].
Proof.
  destruct (registerDirective_result Page.host 0%nat (js "button.copy") Page.Quiet
              empty_heap
              (mkManager 0 [] Page.Quiet (js "button.copy"))
              (registerDirective Page.host 0%nat (js "button.copy") Page.Quiet empty_heap).2)
    as (_ & Hs & _ & _ & _ & _).
  - vm_compute. reflexivity.
  - split; [exact Hs|]. vm_compute. reflexivity.
Defined.
